(** * NeoOtto chat widget (src/index.tsx): suggestion parsing, streaming
    display and the turn/initialisation state machine.

    JavaScript strings are sequences of UTF-16 code units; they are modelled
    as [list N].  The two regular expressions of the source are embedded as
    the backtracking search the ECMAScript engine performs for them. *)

From Stdlib Require Import List Arith NArith Ascii String Bool Lia.
Import ListNotations.
Open Scope N_scope.

Definition jsstr := list N.

(** ** Writing JS string literals

    A Rocq string literal is a sequence of bytes (UTF-8 for non-ASCII text);
    [js] decodes it into UTF-16 code units (supplementary characters become
    surrogate pairs). *)

Definition byte_of (a : ascii) : N := N_of_ascii a.

Fixpoint utf8_to_utf16 (l : list N) : jsstr :=
  match l with
  | [] => []
  | b1 :: rest =>
      if b1 <? 128 then b1 :: utf8_to_utf16 rest
      else if b1 <? 224 then
        match rest with
        | b2 :: r => ((b1 - 192) * 64 + (b2 - 128)) :: utf8_to_utf16 r
        | [] => []
        end
      else if b1 <? 240 then
        match rest with
        | b2 :: b3 :: r =>
            ((b1 - 224) * 4096 + (b2 - 128) * 64 + (b3 - 128)) :: utf8_to_utf16 r
        | _ => []
        end
      else
        match rest with
        | b2 :: b3 :: b4 :: r =>
            let cp := (b1 - 240) * 262144 + (b2 - 128) * 4096
                      + (b3 - 128) * 64 + (b4 - 128) - 65536 in
            (55296 + cp / 1024) :: (56320 + cp mod 1024) :: utf8_to_utf16 r
        | _ => []
        end
  end.

Definition js (s : string) : jsstr :=
  utf8_to_utf16 (map byte_of (list_ascii_of_string s)).

Definition QUOTE : N := 34.
Definition LF : N := 10.

(** ** String.prototype.trim

    ECMAScript WhiteSpace (TAB, VT, FF, SP, NBSP, ZWNBSP and the Zs
    category) and LineTerminator (LF, CR, LS, PS). *)

Definition is_ws (c : N) : bool :=
  (c =? 9) || (c =? 10) || (c =? 11) || (c =? 12) || (c =? 13) || (c =? 32)
  || (c =? 160) || (c =? 5760) || ((8192 <=? c) && (c <=? 8202))
  || (c =? 8232) || (c =? 8233) || (c =? 8239) || (c =? 8287)
  || (c =? 12288) || (c =? 65279).

(** Characters that the regex atom [.] does not match. *)
Definition is_line_terminator (c : N) : bool :=
  (c =? 10) || (c =? 13) || (c =? 8232) || (c =? 8233).

Fixpoint ltrim (s : jsstr) : jsstr :=
  match s with
  | [] => []
  | c :: s' => if is_ws c then ltrim s' else s
  end.

Definition rtrim (s : jsstr) : jsstr := rev (ltrim (rev s)).

Definition trim (s : jsstr) : jsstr := rtrim (ltrim s).

(** ** String.prototype.split('\n') *)

Fixpoint split_nl (s : jsstr) : list jsstr :=
  match s with
  | [] => [[]]
  | c :: s' =>
      let r := split_nl s' in
      if c =? LF then [] :: r
      else match r with
           | h :: t => (c :: h) :: t
           | [] => [[c]]
           end
  end.

(** ** Literal prefixes *)

Fixpoint prefixb (m s : jsstr) : bool :=
  match m, s with
  | [], _ => true
  | x :: m', c :: s' => (x =? c) && prefixb m' s'
  | _ :: _, [] => false
  end.

Fixpoint occurs (m s : jsstr) : bool :=
  prefixb m s || match s with [] => false | _ :: s' => occurs m s' end.

(** ** The suggestion-block regex [/\[SUGGESTIONS\]([\s\S]*?)\[\/SUGGESTIONS\]/] *)

Definition START_MARKER : jsstr := js "[SUGGESTIONS]".
Definition END_MARKER : jsstr := js "[/SUGGESTIONS]".

(** The lazy group [([\s\S]*?)] followed by the end marker: the shortest
    prefix after which the end marker follows.  Returns the captured group
    and the text after the end marker. *)
Fixpoint lazy_until_end (s : jsstr) : option (jsstr * jsstr) :=
  if prefixb END_MARKER s then Some ([], skipn (List.length END_MARKER) s)
  else match s with
       | [] => None
       | c :: s' =>
           match lazy_until_end s' with
           | Some (cap, rest) => Some (c :: cap, rest)
           | None => None
           end
       end.

(** A match attempt of the block regex at the current position. *)
Definition block_match_at (s : jsstr) : option (jsstr * jsstr) :=
  if prefixb START_MARKER s then lazy_until_end (skipn (List.length START_MARKER) s)
  else None.

(** [String.prototype.match] with a non-global regex: the attempt at every
    position from left to right, first success wins. *)
Fixpoint block_search (s : jsstr) : option (jsstr * jsstr) :=
  match block_match_at s with
  | Some r => Some r
  | None => match s with [] => None | _ :: s' => block_search s' end
  end.

(** [String.prototype.replace] with the global regex and replacement [''].
    [skip] counts the code units of a removed match that remain to be
    dropped; after a match the scan resumes at its end ([lastIndex]). *)
Fixpoint replace_blocks (skip : nat) (s : jsstr) : jsstr :=
  match s with
  | [] => []
  | c :: s' =>
      match skip with
      | S k => replace_blocks k s'
      | O =>
          match block_match_at s with
          | Some (_, rest) => replace_blocks (List.length s - List.length rest - 1) s'
          | None => c :: replace_blocks O s'
          end
      end
  end.

(** [bufferedText.replace(/\[SUGGESTIONS\][\s\S]*?\[\/SUGGESTIONS\]/g, '').trim()] *)
Definition displayText (bufferedText : jsstr) : jsstr :=
  trim (replace_blocks O bufferedText).

(** ** The quote regex: [.*?] between two double-quote characters *)

(** After the opening quote: [.*?] then the closing quote. *)
Fixpoint quote_scan (s : jsstr) : option jsstr :=
  match s with
  | [] => None
  | c :: s' =>
      if c =? QUOTE then Some []
      else if is_line_terminator c then None
      else match quote_scan s' with
           | Some q => Some (c :: q)
           | None => None
           end
  end.

(** [line.match(...)] with the quote regex: group 1 of the leftmost match. *)
Fixpoint first_quoted (s : jsstr) : option jsstr :=
  match s with
  | [] => None
  | c :: s' =>
      match (if c =? QUOTE then quote_scan s' else None) with
      | Some q => Some q
      | None => first_quoted s'
      end
  end.

(** [.filter(Boolean).map(m => m[1])] over the per-line matches. *)
Fixpoint keep_matches (ms : list (option jsstr)) : list jsstr :=
  match ms with
  | [] => []
  | Some q :: ms' => q :: keep_matches ms'
  | None :: ms' => keep_matches ms'
  end.

(** [suggestionsText.split('\n').map(s => s.trim().match(...))
    .filter(Boolean).map(m => m[1])] *)
Definition suggestions_of_lines (suggestionsText : jsstr) : list jsstr :=
  keep_matches (map (fun s => first_quoted (trim s)) (split_nl suggestionsText)).

(** The suggestion list computed by [processAndDisplaySuggestions]; it is
    empty on each of its early returns. *)
Definition parseSuggestions (fullResponse : jsstr) : list jsstr :=
  match block_search fullResponse with
  | None => []
  | Some (cap, _) =>
      match cap with
      | [] => []   (* !match[1] *)
      | _ => suggestions_of_lines (trim cap)
      end
  end.

(** ** Page state

    The DOM as far as the program touches it: the children of
    [#chat-container] (message bubbles and suggestion containers, each with
    an element identity), the input and send controls, and the module-level
    [chat] handle.  [remoteCalls] records every [chat.sendMessageStream]
    call.  Scrolling, textarea resizing and console logging are presentation
    only and not modelled. *)

Inductive Sender := User | Bot.

(** Content of a bubble: untouched, [textContent], [innerHTML] set to a
    literal string, or [innerHTML = marked.parse(src)] (the renderer is an
    opaque collaborator). *)
Inductive Content :=
| CEmpty
| CText (s : jsstr)
| CHtml (s : jsstr)
| CMarkdown (src : jsstr).

Inductive Node :=
| MsgNode (sender : Sender) (content : Content)
| SuggestionsNode (chips : list jsstr).

Record ChatSession := MkChat { chat_model : jsstr }.

Record St := MkSt {
  chat : option ChatSession;
  nextId : nat;
  children : list (nat * Node);
  inputDisabled : bool;
  sendDisabled : bool;
  spinner : bool;
  placeholder : jsstr;
  inputValue : jsstr;
  inputFocused : bool;
  remoteCalls : list jsstr
}.

(** ** Thrown values, remote responses *)

Inductive Thrown :=
| ErrorObj (message : jsstr)     (* an [Error] instance *)
| NonError (shown : jsstr).      (* any other thrown value *)

(** One [chunk.text] of the stream ([None]: the field is undefined). *)
Definition Chunk := option jsstr.

Inductive StreamEnd := EndOfStream | StreamThrows (e : Thrown).

(** What the remote provider does for one [sendMessageStream] call: the
    promise rejects, or it yields chunks and then ends or throws. *)
Inductive Response :=
| Rejected (e : Thrown)
| Streamed (chunks : list Chunk) (ending : StreamEnd).

(** ** A state-and-exception monad: DOM effects survive a throw. *)

Inductive Res (A : Type) := Ok (a : A) | Exn (e : Thrown).
Arguments Ok {A} a.
Arguments Exn {A} e.

Definition M (A : Type) := St -> Res A * St.

Definition ret {A} (a : A) : M A := fun st => (Ok a, st).
Definition bind {A B} (m : M A) (k : A -> M B) : M B :=
  fun st => match m st with
            | (Ok a, st') => k a st'
            | (Exn e, st') => (Exn e, st')
            end.
Definition throw {A} (e : Thrown) : M A := fun st => (Exn e, st).
Definition get : M St := fun st => (Ok st, st).
Definition modify (f : St -> St) : M unit := fun st => (Ok tt, f st).

Notation "x <- m ;; k" := (bind m (fun x => k))
  (at level 61, m at next level, right associativity).
Notation "m ;;; k" := (bind m (fun _ => k))
  (at level 61, right associativity).

(** [try { body } catch (error) { handler } finally { fin }] *)
Definition try_catch_finally (body : M unit) (handler : Thrown -> M unit)
    (fin : M unit) : M unit :=
  fun st =>
    let '(r, st1) := body st in
    let '(r2, st2) := match r with
                      | Ok u => (Ok u, st1)
                      | Exn e => handler e st1
                      end in
    match r2 with
    | Ok _ => fin st2
    | Exn e => let '(r3, st3) := fin st2 in
               match r3 with Ok _ => (Exn e, st3) | Exn e' => (Exn e', st3) end
    end.

(** ** DOM helpers *)

Definition set_children (cs : list (nat * Node)) (n : nat) (st : St) : St :=
  MkSt (chat st) n cs (inputDisabled st) (sendDisabled st) (spinner st)
       (placeholder st) (inputValue st) (inputFocused st) (remoteCalls st).

Definition appendChild (nd : Node) : M nat :=
  fun st => (Ok (nextId st),
             set_children (children st ++ [(nextId st, nd)]) (S (nextId st)) st).

(** [appendMessage(sender)]: a fresh, empty bubble. *)
Definition appendMessage (sender : Sender) : M nat :=
  appendChild (MsgNode sender CEmpty).

Definition set_node_content (id : nat) (c : Content) (p : nat * Node) : nat * Node :=
  let '(i, nd) := p in
  if Nat.eqb i id then
    match nd with
    | MsgNode s _ => (i, MsgNode s c)
    | SuggestionsNode _ => (i, nd)
    end
  else (i, nd).

Definition setContent (id : nat) (c : Content) : M unit :=
  modify (fun st => set_children (map (set_node_content id c) (children st))
                                 (nextId st) st).

(** [document.querySelector('.suggestions-container')?.remove()] *)
Fixpoint remove_first_suggestions (cs : list (nat * Node)) : list (nat * Node) :=
  match cs with
  | [] => []
  | (i, SuggestionsNode _) :: cs' => cs'
  | p :: cs' => p :: remove_first_suggestions cs'
  end.

Definition removeExistingSuggestions : M unit :=
  modify (fun st => set_children (remove_first_suggestions (children st))
                                 (nextId st) st).

(** [setLoading(isLoading)] *)
Definition setLoading (isLoading : bool) : M unit :=
  modify (fun st => MkSt (chat st) (nextId st) (children st) isLoading isLoading
                         isLoading (placeholder st) (inputValue st)
                         (inputFocused st) (remoteCalls st)).

Definition focusInput : M unit :=
  modify (fun st => MkSt (chat st) (nextId st) (children st) (inputDisabled st)
                         (sendDisabled st) (spinner st) (placeholder st)
                         (inputValue st) true (remoteCalls st)).

(** [chatForm.reset()] *)
Definition resetForm : M unit :=
  modify (fun st => MkSt (chat st) (nextId st) (children st) (inputDisabled st)
                         (sendDisabled st) (spinner st) (placeholder st)
                         [] (inputFocused st) (remoteCalls st)).

(** ** processAndDisplaySuggestions *)

(** The chips' [onclick] handlers re-enter [sendMessageAndStreamResponse]
    on a user click; the container is recorded with its chip texts. *)
Definition processAndDisplaySuggestions (fullResponse : jsstr) : M unit :=
  match block_search fullResponse with
  | None => ret tt
  | Some (cap, _) =>
      match cap with
      | [] => ret tt
      | _ =>
          let suggestions := suggestions_of_lines (trim cap) in
          match suggestions with
          | [] => ret tt
          | _ => appendChild (SuggestionsNode suggestions) ;;; ret tt
          end
      end
  end.

(** ** sendMessageAndStreamResponse *)

Definition RETRY_PREFIX : jsstr :=
  js "Ocorreu um erro. Por favor, tente novamente.<br><br><code>".
Definition RETRY_SUFFIX : jsstr := js "</code>".

(** [error instanceof Error ? error.message : "An unknown error occurred."] *)
Definition errorMessageOf (e : Thrown) : jsstr :=
  match e with
  | ErrorObj m => m
  | NonError _ => js "An unknown error occurred."
  end.

Definition retryHtml (e : Thrown) : jsstr :=
  RETRY_PREFIX ++ errorMessageOf e ++ RETRY_SUFFIX.

(** [bufferedText += chunk.text] (an undefined field appends "undefined"). *)
Definition chunk_text (c : Chunk) : jsstr :=
  match c with Some t => t | None => js "undefined" end.

(** The [for await] loop: append, recompute [displayText], render. *)
Fixpoint consume (botEl : nat) (chunks : list Chunk) (ending : StreamEnd)
    (bufferedText : jsstr) : M jsstr :=
  match chunks with
  | [] => match ending with
          | EndOfStream => ret bufferedText
          | StreamThrows e => throw e
          end
  | c :: cs =>
      let buffered' := bufferedText ++ chunk_text c in
      setContent botEl (CMarkdown (displayText buffered')) ;;;
      consume botEl cs ending buffered'
  end.

(** [await chat.sendMessageStream({ message })]: the call is recorded. *)
Definition sendMessageStream (message : jsstr) (remote : Response)
    : M (list Chunk * StreamEnd) :=
  modify (fun st => MkSt (chat st) (nextId st) (children st) (inputDisabled st)
                         (sendDisabled st) (spinner st) (placeholder st)
                         (inputValue st) (inputFocused st)
                         (remoteCalls st ++ [message])) ;;;
  match remote with
  | Rejected e => throw e
  | Streamed cs ending => ret (cs, ending)
  end.

Definition sendMessageAndStreamResponse (userMessage : jsstr) (remote : Response)
    : M unit :=
  st <- get ;;
  match userMessage, chat st with
  | [], _ => ret tt                       (* !userMessage *)
  | _, None => ret tt                     (* !chat *)
  | _, Some _ =>
      userEl <- appendMessage User ;;
      setContent userEl (CText userMessage) ;;;
      setLoading true ;;;
      botEl <- appendMessage Bot ;;
      removeExistingSuggestions ;;;
      try_catch_finally
        (stream <- sendMessageStream userMessage remote ;;
         bufferedText <- consume botEl (fst stream) (snd stream) [] ;;
         processAndDisplaySuggestions bufferedText)
        (fun error => setContent botEl (CHtml (retryHtml error)))
        (setLoading false ;;; focusInput)
  end.

(** ** handleFormSubmit *)

Definition handleFormSubmit (remote : Response) : M unit :=
  st <- get ;;
  let userMessage := trim (inputValue st) in
  match userMessage with
  | [] => ret tt
  | _ => resetForm ;;; sendMessageAndStreamResponse userMessage remote
  end.

(** ** initializeApp *)

Definition GREETING : jsstr :=
  js "Olá! Sou o NeoOtto, o seu consultor de IA. Em que posso ajudar a sua empresa hoje? Por exemplo, pode perguntar-me sobre como otimizar a logística na sua PME.".

Definition CONFIG_ERROR_HTML : jsstr :=
  js "<strong>Erro de Configuração:</strong> A chave da API (API_KEY) não foi encontrada. Esta aplicação requer que a chave seja configurada no ambiente de hospedagem. Sem ela, o assistente não pode funcionar.".

Definition DISABLED_PLACEHOLDER : jsstr :=
  js "Aplicação desativada - API_KEY não configurada.".

Definition displayInitialGreeting : M unit :=
  botEl <- appendMessage Bot ;;
  setContent botEl (CMarkdown GREETING).

(** [chat = ai.chats.create({ model: 'gemini-2.5-flash', ... })] *)
Definition createChat : M unit :=
  modify (fun st => MkSt (Some (MkChat (js "gemini-2.5-flash"))) (nextId st)
                         (children st) (inputDisabled st) (sendDisabled st)
                         (spinner st) (placeholder st) (inputValue st)
                         (inputFocused st) (remoteCalls st)).

Definition disableApp : M unit :=
  modify (fun st => MkSt (chat st) (nextId st) (children st) true true
                         (spinner st) DISABLED_PLACEHOLDER (inputValue st)
                         (inputFocused st) (remoteCalls st)).

(** [process.env.API_KEY] is [apiKey]; [!API_KEY] holds for an undefined or
    empty value. *)
Definition initializeApp (apiKey : option jsstr) : M unit :=
  try_catch_finally
    (match apiKey with
     | None | Some [] =>
         throw (ErrorObj (js "A variável de ambiente API_KEY não foi definida."))
     | Some _ => createChat ;;; displayInitialGreeting
     end)
    (fun _ => errorContainer <- appendMessage Bot ;;
              setContent errorContainer (CHtml CONFIG_ERROR_HTML) ;;;
              disableApp)
    (ret tt).

(** A sequence of send attempts, each with the provider's behaviour. *)
Fixpoint run_sends (attempts : list (jsstr * Response)) : M unit :=
  match attempts with
  | [] => ret tt
  | (m, r) :: rest => sendMessageAndStreamResponse m r ;;; run_sends rest
  end.

(** ** Vocabulary for the statements *)

(** The text after the first start marker, if there is one. *)
Fixpoint after_first_start (s : jsstr) : option jsstr :=
  if prefixb START_MARKER s then Some (skipn (List.length START_MARKER) s)
  else match s with [] => None | _ :: s' => after_first_start s' end.

(** A start marker followed, later, by an end marker. *)
Definition complete_pair (s : jsstr) : Prop :=
  exists pre mid post, s = pre ++ START_MARKER ++ mid ++ END_MARKER ++ post.

(** A closed block around [body]. *)
Definition block (body : jsstr) : jsstr := START_MARKER ++ body ++ END_MARKER.

(** Lines joined with newlines. *)
Fixpoint join_nl (ls : list jsstr) : jsstr :=
  match ls with
  | [] => []
  | [l] => l
  | l :: ls' => l ++ LF :: join_nl ls'
  end.

(** A suggestion line [L "Q" R]. *)
Definition mkline (l : jsstr * jsstr * jsstr) : jsstr :=
  let '(L, Q, R) := l in L ++ QUOTE :: Q ++ QUOTE :: R.

Definition quoted_content (l : jsstr * jsstr * jsstr) : jsstr :=
  let '(_, Q, _) := l in Q.

(** No newline anywhere on the line, no quote before the opening one, and
    no quote nor line terminator inside the quotes. *)
Definition quoted_line_ok (l : jsstr * jsstr * jsstr) : bool :=
  let '(L, Q, R) := l in
  forallb (fun c => negb (c =? QUOTE) && negb (c =? LF)) L
  && forallb (fun c => negb (c =? QUOTE) && negb (is_line_terminator c)) Q
  && forallb (fun c => negb (c =? LF)) R.

(** All element identities below the next fresh one. *)
Definition ids_fresh (st : St) : Prop :=
  Forall (fun p => (fst p < nextId st)%nat) (children st).

(** A text made of an opening part and closed blocks, each followed by
    plain text. *)
Definition with_blocks (T0 : jsstr) (bs : list (jsstr * jsstr)) : jsstr :=
  T0 ++ List.concat (map (fun bt => block (fst bt) ++ snd bt) bs).

(** A double-quoted literal. *)
Definition quoted (s : string) : jsstr := QUOTE :: js s ++ [QUOTE].

(** The stream buffer of the scenario of the spec, received up to the start
    marker and the first quoted line. *)
Definition partial_stream_buffer : jsstr :=
  js "Olá!" ++ [LF] ++ START_MARKER ++ [LF] ++ quoted "Pergunta 1?".

(** The text a stream delivers: its chunks' texts, concatenated. *)
Definition stream_text (cs : list Chunk) : jsstr := List.concat (map chunk_text cs).

(** The final content of the bot bubble of a turn that passed the guard. *)
Definition bot_final (remote : Response) : Content :=
  match remote with
  | Rejected e => CHtml (retryHtml e)
  | Streamed _ (StreamThrows e) => CHtml (retryHtml e)
  | Streamed [] EndOfStream => CEmpty
  | Streamed cs EndOfStream => CMarkdown (displayText (stream_text cs))
  end.

(** The chips of the container a turn adds (none when empty). *)
Definition turn_suggestions (remote : Response) : list jsstr :=
  match remote with
  | Streamed cs EndOfStream => parseSuggestions (stream_text cs)
  | _ => []
  end.

Definition suggestions_nodes (id : nat) (sug : list jsstr) : list (nat * Node) :=
  match sug with [] => [] | _ => [(id, SuggestionsNode sug)] end.

(** The page after one turn of [msg] that passed the guard. *)
Definition after_turn (msg : jsstr) (remote : Response) (st : St) : St :=
  let n := nextId st in
  let sn := suggestions_nodes (S (S n)) (turn_suggestions remote) in
  MkSt (chat st) (S (S n) + List.length sn)%nat
       (remove_first_suggestions (children st)
          ++ [(n, MsgNode User (CText msg)); (S n, MsgNode Bot (bot_final remote))] ++ sn)
       false false false (placeholder st) (inputValue st) true (remoteCalls st ++ [msg]).

Definition is_suggestions (p : nat * Node) : bool :=
  match snd p with SuggestionsNode _ => true | MsgNode _ _ => false end.

(** Number of suggestion containers on the page. *)
Definition count_suggestions (cs : list (nat * Node)) : nat :=
  List.length (filter is_suggestions cs).

(** Fresh element identities and at most one suggestion container. *)
Definition page_ok (st : St) : Prop :=
  ids_fresh st /\ (count_suggestions (children st) <= 1)%nat.

(** Characters a chip text may hold: no double quote, no line terminator. *)
Definition chip_char_ok (c : N) : bool := negb (c =? QUOTE) && negb (is_line_terminator c).

(** * Lemmas *)

Lemma start_marker_val :
  START_MARKER = [91; 83; 85; 71; 71; 69; 83; 84; 73; 79; 78; 83; 93].
Proof. reflexivity. Qed.

Lemma end_marker_val :
  END_MARKER = [91; 47; 83; 85; 71; 71; 69; 83; 84; 73; 79; 78; 83; 93].
Proof. reflexivity. Qed.

(** ** Prefixes and occurrences *)

Lemma prefixb_self (m y : jsstr) : prefixb m (m ++ y) = true.
Proof. induction m as [|x m IH]; simpl; [reflexivity|]. now rewrite N.eqb_refl. Qed.

Lemma skipn_self (m y : jsstr) : skipn (List.length m) (m ++ y) = y.
Proof. induction m; simpl; auto. Qed.

Lemma occurs_self (m y : jsstr) : occurs m (m ++ y) = true.
Proof. destruct m; simpl; [destruct y; reflexivity|]. rewrite N.eqb_refl, prefixb_self. reflexivity. Qed.

Lemma occurs_app_r (m a b : jsstr) : occurs m b = true -> occurs m (a ++ b) = true.
Proof.
  induction a as [|c a IH]; simpl; intro H; auto.
  rewrite IH by exact H. apply orb_true_r.
Qed.

Lemma occurs_app_l (m a b : jsstr) : occurs m (a ++ b) = false -> occurs m b = false.
Proof.
  intro H. destruct (occurs m b) eqn:E; auto.
  rewrite (occurs_app_r m a b E) in H. discriminate.
Qed.

Lemma occurs_cons (m : jsstr) (c : N) (s : jsstr) :
  occurs m (c :: s) = prefixb m (c :: s) || occurs m s.
Proof. reflexivity. Qed.

(** [y] is empty or opens with '['. *)
Definition opens (y : jsstr) : Prop :=
  match y with [] => True | c :: _ => c = 91 end.

(** A marker whose '[' appears only in front cannot straddle the boundary
    before another '['. *)
Lemma prefixb_straddle (m a y : jsstr) :
  a <> [] -> ~ In 91 (tl m) -> opens y ->
  prefixb m (a ++ y) = true -> prefixb m a = true.
Proof.
  revert m. induction a as [|c a IH]; intros m Ha Hm Hy H; [congruence|].
  destruct m as [|x m]; [reflexivity|].
  simpl in H |- *. apply andb_true_iff in H as [Hx H]. rewrite Hx. simpl.
  destruct a as [|c' a'].
  - destruct m as [|z m]; [reflexivity|].
    destruct y as [|w y]; simpl in H; [discriminate|].
    apply andb_true_iff in H as [Hz _]. apply N.eqb_eq in Hz. simpl in Hy. subst.
    exfalso. apply Hm. simpl. now left.
  - apply IH; auto; [discriminate|].
    intro Hin. apply Hm. destruct m; simpl in *; [contradiction|]. now right.
Qed.

Lemma start_no_bracket : ~ In 91 (tl START_MARKER).
Proof. rewrite start_marker_val. simpl. intuition discriminate. Qed.

Lemma end_no_bracket : ~ In 91 (tl END_MARKER).
Proof. rewrite end_marker_val. simpl. intuition discriminate. Qed.

Lemma prefixb_start_straddle (c : N) (a y : jsstr) :
  occurs START_MARKER (c :: a) = false -> opens y ->
  prefixb START_MARKER (c :: a ++ y) = false.
Proof.
  intros Hocc Hy. destruct (prefixb START_MARKER (c :: a ++ y)) eqn:E; auto.
  apply (prefixb_straddle _ (c :: a) y) in E; try discriminate; auto using start_no_bracket.
  rewrite occurs_cons, E in Hocc. discriminate.
Qed.

Lemma prefixb_end_straddle (c : N) (a y : jsstr) :
  occurs END_MARKER (c :: a) = false -> opens y ->
  prefixb END_MARKER (c :: a ++ y) = false.
Proof.
  intros Hocc Hy. destruct (prefixb END_MARKER (c :: a ++ y)) eqn:E; auto.
  apply (prefixb_straddle _ (c :: a) y) in E; try discriminate; auto using end_no_bracket.
  rewrite occurs_cons, E in Hocc. discriminate.
Qed.

(** ** The block regex on structured texts *)

Lemma block_search_cons (c : N) (s : jsstr) :
  block_search (c :: s) =
  match block_match_at (c :: s) with
  | Some r => Some r
  | None => block_search s
  end.
Proof. reflexivity. Qed.

Lemma replace_blocks_cons0 (c : N) (s : jsstr) :
  replace_blocks O (c :: s) =
  match block_match_at (c :: s) with
  | Some (_, rest) => replace_blocks (List.length (c :: s) - List.length rest - 1) s
  | None => c :: replace_blocks O s
  end.
Proof. reflexivity. Qed.

Lemma block_match_at_plain (c : N) (a y : jsstr) :
  occurs START_MARKER (c :: a) = false -> opens y ->
  block_match_at (c :: a ++ y) = None.
Proof.
  intros H Hy. unfold block_match_at. now rewrite prefixb_start_straddle.
Qed.

Lemma occurs_tail (m : jsstr) (c : N) (a : jsstr) :
  occurs m (c :: a) = false -> occurs m a = false.
Proof. rewrite occurs_cons. intro H. now apply orb_false_iff in H as [_ H]. Qed.

Lemma block_search_plain (T y : jsstr) :
  occurs START_MARKER T = false -> opens y ->
  block_search (T ++ y) = block_search y.
Proof.
  induction T as [|c T IH]; intros H Hy; [reflexivity|].
  simpl app. rewrite block_search_cons, block_match_at_plain by assumption.
  apply IH; auto. eapply occurs_tail; eauto.
Qed.

Lemma lazy_until_end_eq (s : jsstr) :
  lazy_until_end s =
  if prefixb END_MARKER s then Some ([], skipn (List.length END_MARKER) s)
  else match s with
       | [] => None
       | c :: s' =>
           match lazy_until_end s' with
           | Some (cap, rest) => Some (c :: cap, rest)
           | None => None
           end
       end.
Proof. destruct s; reflexivity. Qed.

Lemma lazy_until_end_block (B r : jsstr) :
  occurs END_MARKER B = false ->
  lazy_until_end (B ++ END_MARKER ++ r) = Some (B, r).
Proof.
  induction B as [|c B IH]; intro H.
  - rewrite app_nil_l, lazy_until_end_eq, prefixb_self, skipn_self. reflexivity.
  - rewrite <- app_comm_cons, lazy_until_end_eq.
    rewrite prefixb_end_straddle; auto.
    + rewrite IH by (eapply occurs_tail; eauto). reflexivity.
    + rewrite end_marker_val. reflexivity.
Qed.

Lemma block_match_at_block (B r : jsstr) :
  occurs END_MARKER B = false ->
  block_match_at (block B ++ r) = Some (B, r).
Proof.
  intro H. unfold block_match_at, block. rewrite <- !app_assoc.
  rewrite prefixb_self, skipn_self. now apply lazy_until_end_block.
Qed.

Lemma block_search_eq (s : jsstr) :
  block_search s =
  match block_match_at s with
  | Some r => Some r
  | None => match s with [] => None | _ :: s' => block_search s' end
  end.
Proof. destruct s; reflexivity. Qed.

Lemma block_search_first (P B S : jsstr) :
  occurs START_MARKER P = false -> occurs END_MARKER B = false ->
  block_search (P ++ block B ++ S) = Some (B, S).
Proof.
  intros HP HB. rewrite block_search_plain; auto.
  - now rewrite block_search_eq, block_match_at_block.
  - unfold block. rewrite start_marker_val. reflexivity.
Qed.

Lemma replace_blocks_skip (l r : jsstr) :
  replace_blocks (List.length l) (l ++ r) = replace_blocks O r.
Proof. induction l as [|c l IH]; [reflexivity|]. exact IH. Qed.

Lemma block_cons (B r : jsstr) :
  block B ++ r = 91 :: (tl START_MARKER ++ B ++ END_MARKER) ++ r.
Proof. unfold block. rewrite start_marker_val. simpl. now rewrite <- !app_assoc. Qed.

Lemma replace_blocks_block (B r : jsstr) :
  occurs END_MARKER B = false ->
  replace_blocks O (block B ++ r) = replace_blocks O r.
Proof.
  intro H. pose proof (block_match_at_block B r H) as Hm.
  rewrite block_cons in Hm |- *. rewrite replace_blocks_cons0, Hm.
  set (x := tl START_MARKER ++ B ++ END_MARKER).
  replace (List.length (91%N :: x ++ r) - List.length r - 1)%nat with (List.length x)
    by (cbn [List.length]; rewrite length_app; lia).
  apply replace_blocks_skip.
Qed.

Lemma replace_blocks_plain (T y : jsstr) :
  occurs START_MARKER T = false -> opens y ->
  replace_blocks O (T ++ y) = T ++ replace_blocks O y.
Proof.
  induction T as [|c T IH]; intros H Hy; [reflexivity|].
  rewrite <- app_comm_cons, replace_blocks_cons0, block_match_at_plain by assumption.
  rewrite IH; auto. eapply occurs_tail; eauto.
Qed.

(** ** Matches come from complete marker pairs *)

Lemma prefixb_split (m t : jsstr) :
  prefixb m t = true -> t = m ++ skipn (List.length m) t.
Proof.
  revert t. induction m as [|x m IH]; intros t H; [reflexivity|].
  destruct t as [|c t]; [discriminate|].
  simpl in H. apply andb_true_iff in H as [Hx H]. apply N.eqb_eq in Hx. subst.
  simpl. f_equal. now apply IH.
Qed.

Lemma lazy_until_end_some (t cap rest : jsstr) :
  lazy_until_end t = Some (cap, rest) -> t = cap ++ END_MARKER ++ rest.
Proof.
  revert cap rest. induction t as [|c t IH]; intros cap rest H;
    rewrite lazy_until_end_eq in H.
  - destruct (prefixb END_MARKER []) eqn:E; [|discriminate].
    rewrite end_marker_val in E. discriminate.
  - destruct (prefixb END_MARKER (c :: t)) eqn:E.
    + injection H as <- <-. now apply prefixb_split.
    + destruct (lazy_until_end t) as [[cap' rest']|] eqn:E'; [|discriminate].
      injection H as <- <-. simpl. f_equal. now apply IH.
Qed.

Lemma block_match_at_some (s cap rest : jsstr) :
  block_match_at s = Some (cap, rest) -> s = START_MARKER ++ cap ++ END_MARKER ++ rest.
Proof.
  unfold block_match_at. destruct (prefixb START_MARKER s) eqn:E; [|discriminate].
  intro H. apply lazy_until_end_some in H. rewrite (prefixb_split _ _ E), H.
  reflexivity.
Qed.

Lemma complete_pair_cons (c : N) (s : jsstr) :
  ~ complete_pair (c :: s) -> ~ complete_pair s.
Proof.
  intros H [pre [mid [post E]]]. apply H.
  exists (c :: pre), mid, post. now rewrite E.
Qed.

Lemma no_pair_block_match_at (s : jsstr) :
  ~ complete_pair s -> block_match_at s = None.
Proof.
  intro H. destruct (block_match_at s) as [[cap rest]|] eqn:E; auto.
  exfalso. apply H. exists [], cap, rest. now apply block_match_at_some.
Qed.

Lemma no_pair_block_search (s : jsstr) :
  ~ complete_pair s -> block_search s = None.
Proof.
  induction s as [|c s IH]; intro H; rewrite block_search_eq, no_pair_block_match_at by auto;
    auto.
  apply IH. eapply complete_pair_cons; eauto.
Qed.

Lemma no_pair_replace_blocks (s : jsstr) :
  ~ complete_pair s -> replace_blocks O s = s.
Proof.
  induction s as [|c s IH]; intro H; [reflexivity|].
  rewrite replace_blocks_cons0, no_pair_block_match_at by auto.
  rewrite IH; auto. eapply complete_pair_cons; eauto.
Qed.

Lemma complete_pair_occurs (s : jsstr) :
  complete_pair s -> occurs START_MARKER s = true /\ occurs END_MARKER s = true.
Proof.
  intros [pre [mid [post ->]]]. split.
  - apply occurs_app_r, occurs_self.
  - rewrite app_assoc, app_assoc. apply occurs_app_r, occurs_self.
Qed.

Lemma after_first_start_eq (s : jsstr) :
  after_first_start s =
  if prefixb START_MARKER s then Some (skipn (List.length START_MARKER) s)
  else match s with [] => None | _ :: s' => after_first_start s' end.
Proof. destruct s; reflexivity. Qed.

Lemma after_first_start_suffix (pre y post : jsstr) :
  after_first_start (pre ++ START_MARKER ++ y) = Some post ->
  exists z, post = z ++ y.
Proof.
  revert post. induction pre as [|c pre IH]; intros post H.
  - rewrite app_nil_l, after_first_start_eq, prefixb_self, skipn_self in H.
    injection H as <-. now exists [].
  - rewrite <- app_comm_cons, after_first_start_eq in H.
    destruct (prefixb START_MARKER (c :: pre ++ START_MARKER ++ y)) eqn:E.
    + injection H as <-.
      change (exists z, skipn 12 (pre ++ START_MARKER ++ y) = z ++ y).
      rewrite app_assoc, skipn_app.
      exists (skipn 12 (pre ++ START_MARKER)).
      replace (12 - List.length (pre ++ START_MARKER))%nat with O.
      * reflexivity.
      * rewrite length_app, start_marker_val. cbn [List.length]. lia.
    + now apply IH.
Qed.

Lemma first_start_no_end_no_pair (s : jsstr) :
  (forall post, after_first_start s = Some post -> occurs END_MARKER post = false) ->
  ~ complete_pair s.
Proof.
  intros H [pre [mid [post E]]].
  destruct (after_first_start s) as [p|] eqn:Ea.
  - specialize (H p eq_refl). subst s.
    destruct (after_first_start_suffix pre _ _ Ea) as [z ->].
    rewrite app_assoc in H.
    rewrite (occurs_app_r _ (z ++ mid) _ (occurs_self _ _)) in H. discriminate.
  - (* a start marker is always found *)
    subst s. clear H. induction pre as [|c pre IH].
    + rewrite app_nil_l, after_first_start_eq, prefixb_self in Ea. discriminate.
    + rewrite <- app_comm_cons, after_first_start_eq in Ea.
      destruct (prefixb START_MARKER _); [discriminate|]. auto.
Qed.

(** ** trim and split *)

Lemma split_nl_not_nil (s : jsstr) : exists h t, split_nl s = h :: t.
Proof.
  destruct s as [|c s]; simpl; [eauto|].
  destruct (c =? LF); [eauto|]. destruct (split_nl s); eauto.
Qed.

Lemma trim_cons_ws (c : N) (s : jsstr) : is_ws c = true -> trim (c :: s) = trim s.
Proof. intro H. unfold trim. simpl. now rewrite H. Qed.

Lemma first_quoted_trim_nil : first_quoted (trim []) = None.
Proof. reflexivity. Qed.

Lemma suggestions_of_lines_cons_ws (c : N) (s : jsstr) :
  is_ws c = true -> suggestions_of_lines (c :: s) = suggestions_of_lines s.
Proof.
  intro H. unfold suggestions_of_lines. simpl split_nl.
  destruct (c =? LF) eqn:E; [reflexivity|].
  destruct (split_nl_not_nil s) as [h [t ->]]. simpl. now rewrite trim_cons_ws.
Qed.

Lemma suggestions_of_lines_ws_prefix (W s : jsstr) :
  forallb is_ws W = true -> suggestions_of_lines (W ++ s) = suggestions_of_lines s.
Proof.
  induction W as [|c W IH]; intro H; [reflexivity|].
  simpl in H. apply andb_true_iff in H as [Hc H].
  rewrite <- app_comm_cons, suggestions_of_lines_cons_ws; auto.
Qed.

Lemma ltrim_decomp (s : jsstr) :
  exists W, s = W ++ ltrim s /\ forallb is_ws W = true.
Proof.
  induction s as [|c s [W [E H]]]; [now exists []|]. simpl.
  destruct (is_ws c) eqn:Hc.
  - exists (c :: W). simpl. rewrite Hc, H. split; [now rewrite <- E|reflexivity].
  - now exists [].
Qed.

Lemma forallb_rev {A} (f : A -> bool) (l : list A) :
  forallb f (rev l) = forallb f l.
Proof.
  induction l as [|x l IH]; [reflexivity|]. simpl.
  rewrite forallb_app, IH. simpl. now rewrite andb_true_r, andb_comm.
Qed.

Lemma rtrim_decomp (s : jsstr) :
  exists W, s = rtrim s ++ W /\ forallb is_ws W = true.
Proof.
  destruct (ltrim_decomp (rev s)) as [W [E H]].
  exists (rev W). split.
  - unfold rtrim. rewrite <- rev_app_distr, <- E. now rewrite rev_involutive.
  - now rewrite forallb_rev.
Qed.

Lemma split_nl_snoc_lf (s : jsstr) : split_nl (s ++ [LF]) = split_nl s ++ [[]].
Proof.
  induction s as [|c s IH]; [reflexivity|].
  rewrite <- app_comm_cons. simpl. rewrite IH.
  destruct (c =? LF); [reflexivity|].
  destruct (split_nl_not_nil s) as [h [t ->]]. reflexivity.
Qed.

Lemma split_nl_snoc (s : jsstr) (c : N) :
  (c =? LF) = false ->
  exists init last, split_nl s = init ++ [last] /\
                    split_nl (s ++ [c]) = init ++ [last ++ [c]].
Proof.
  intro Hc. induction s as [|x s [I [L [E1 E2]]]].
  - exists [], []. simpl. now rewrite Hc.
  - rewrite <- app_comm_cons. simpl. rewrite E1, E2.
    destruct (x =? LF).
    + now exists ([] :: I), L.
    + destruct I as [|h I].
      * now exists [], (x :: L).
      * now exists ((x :: h) :: I), L.
Qed.

Lemma ltrim_app (a b : jsstr) :
  ltrim (a ++ b) = match ltrim a with [] => ltrim b | x => x ++ b end.
Proof.
  induction a as [|c a IH]; [reflexivity|].
  simpl. destruct (is_ws c); [exact IH|reflexivity].
Qed.

Lemma trim_snoc_ws (l : jsstr) (c : N) : is_ws c = true -> trim (l ++ [c]) = trim l.
Proof.
  intro H. unfold trim, rtrim. rewrite ltrim_app.
  destruct (ltrim l) as [|x l'] eqn:E.
  - simpl. now rewrite H.
  - rewrite rev_app_distr. simpl. now rewrite H.
Qed.

Lemma keep_matches_app (a b : list (option jsstr)) :
  keep_matches (a ++ b) = keep_matches a ++ keep_matches b.
Proof. induction a as [|[q|] a IH]; simpl; auto. now rewrite IH. Qed.

Lemma suggestions_of_lines_snoc_ws (s : jsstr) (c : N) :
  is_ws c = true -> suggestions_of_lines (s ++ [c]) = suggestions_of_lines s.
Proof.
  intro H. unfold suggestions_of_lines.
  destruct (c =? LF) eqn:E.
  - apply N.eqb_eq in E. subst. rewrite split_nl_snoc_lf, map_app, keep_matches_app.
    simpl. now rewrite app_nil_r.
  - destruct (split_nl_snoc s c E) as [I [L [E1 E2]]]. rewrite E1, E2.
    rewrite !map_app, !keep_matches_app. simpl. now rewrite trim_snoc_ws.
Qed.

Lemma suggestions_of_lines_ws_suffix (s W : jsstr) :
  forallb is_ws W = true -> suggestions_of_lines (s ++ W) = suggestions_of_lines s.
Proof.
  revert s. induction W as [|c W IH]; intros s H; [now rewrite app_nil_r|].
  simpl in H. apply andb_true_iff in H as [Hc H].
  replace (s ++ c :: W) with ((s ++ [c]) ++ W) by now rewrite <- app_assoc.
  rewrite IH by exact H. now apply suggestions_of_lines_snoc_ws.
Qed.

Lemma suggestions_of_lines_trim (s : jsstr) :
  suggestions_of_lines (trim s) = suggestions_of_lines s.
Proof.
  unfold trim. destruct (rtrim_decomp (ltrim s)) as [W [E H]].
  rewrite <- (suggestions_of_lines_ws_suffix _ W H), <- E.
  destruct (ltrim_decomp s) as [W' [E' H']].
  rewrite E' at 2. now rewrite suggestions_of_lines_ws_prefix.
Qed.

(** ** Well-formed suggestion lines *)

Definition no_lf (s : jsstr) : bool := forallb (fun c => negb (c =? LF)) s.

Lemma split_nl_no_lf (a : jsstr) : no_lf a = true -> split_nl a = [a].
Proof.
  induction a as [|c a IH]; intro H; [reflexivity|].
  unfold no_lf in H. simpl in H. apply andb_true_iff in H as [Hc H].
  simpl. rewrite IH by exact H. apply negb_true_iff in Hc. now rewrite Hc.
Qed.

Lemma split_nl_app_lf (a b : jsstr) :
  no_lf a = true -> split_nl (a ++ LF :: b) = a :: split_nl b.
Proof.
  induction a as [|c a IH]; intro H; [reflexivity|].
  unfold no_lf in H. simpl in H. apply andb_true_iff in H as [Hc H].
  rewrite <- app_comm_cons. simpl. rewrite IH by exact H.
  apply negb_true_iff in Hc. now rewrite Hc.
Qed.

Lemma split_nl_join (ls : list jsstr) :
  forallb no_lf ls = true -> ls <> [] -> split_nl (join_nl ls) = ls.
Proof.
  induction ls as [|l ls IH]; intros H Hne; [congruence|].
  simpl in H. apply andb_true_iff in H as [Hl H].
  destruct ls as [|l' ls].
  - now apply split_nl_no_lf.
  - change (join_nl (l :: l' :: ls)) with (l ++ LF :: join_nl (l' :: ls)).
    rewrite split_nl_app_lf by exact Hl. f_equal. apply IH; auto. discriminate.
Qed.

Lemma ltrim_app_nonws (a y : jsstr) (c : N) :
  is_ws c = false -> ltrim (a ++ c :: y) = ltrim a ++ c :: y.
Proof.
  intro Hc. rewrite ltrim_app. destruct (ltrim a) eqn:E; [|reflexivity].
  simpl. now rewrite Hc.
Qed.

Lemma rtrim_app_nonws (y R : jsstr) (c : N) :
  is_ws c = false -> rtrim (y ++ c :: R) = y ++ c :: rtrim R.
Proof.
  intro Hc. unfold rtrim. rewrite rev_app_distr. simpl.
  rewrite <- app_assoc. simpl. rewrite ltrim_app_nonws by exact Hc.
  rewrite rev_app_distr. simpl. now rewrite rev_involutive, <- app_assoc.
Qed.

Lemma ltrim_incl (x : N) (s : jsstr) : In x (ltrim s) -> In x s.
Proof.
  destruct (ltrim_decomp s) as [W [E _]]. intro H. rewrite E. apply in_or_app. now right.
Qed.

Lemma quote_scan_content (Q R : jsstr) :
  forallb (fun c => negb (c =? QUOTE) && negb (is_line_terminator c)) Q = true ->
  quote_scan (Q ++ QUOTE :: R) = Some Q.
Proof.
  induction Q as [|c Q IH]; intro H; [reflexivity|].
  simpl in H. apply andb_true_iff in H as [Hc H].
  apply andb_true_iff in Hc as [Hq Ht]. apply negb_true_iff in Hq, Ht.
  rewrite <- app_comm_cons. simpl. rewrite Hq, Ht, IH by exact H. reflexivity.
Qed.

Lemma first_quoted_line (L Q R : jsstr) :
  (forall x, In x L -> x <> QUOTE) ->
  forallb (fun c => negb (c =? QUOTE) && negb (is_line_terminator c)) Q = true ->
  first_quoted (L ++ QUOTE :: Q ++ QUOTE :: R) = Some Q.
Proof.
  intros HL HQ. induction L as [|c L IH].
  - simpl. now rewrite quote_scan_content.
  - rewrite <- app_comm_cons. simpl.
    assert (Hc : (c =? QUOTE) = false)
      by (apply N.eqb_neq, HL; now left).
    rewrite Hc. apply IH. intros x Hx. apply HL. now right.
Qed.

Lemma is_ws_quote : is_ws QUOTE = false.
Proof. reflexivity. Qed.

Lemma first_quoted_trim_line (l : jsstr * jsstr * jsstr) :
  quoted_line_ok l = true -> first_quoted (trim (mkline l)) = Some (quoted_content l).
Proof.
  destruct l as [[L Q] R]. simpl. intro H.
  apply andb_true_iff in H as [H HR]. apply andb_true_iff in H as [HL HQ].
  unfold trim. rewrite ltrim_app_nonws by exact is_ws_quote.
  rewrite app_comm_cons, app_assoc, rtrim_app_nonws by exact is_ws_quote.
  rewrite <- app_assoc, <- app_comm_cons. apply first_quoted_line; auto.
  intros x Hx E. subst. apply ltrim_incl in Hx.
  rewrite forallb_forall in HL. specialize (HL _ Hx).
  rewrite N.eqb_refl in HL. discriminate.
Qed.

Lemma mkline_no_lf (l : jsstr * jsstr * jsstr) :
  quoted_line_ok l = true -> no_lf (mkline l) = true.
Proof.
  destruct l as [[L Q] R]. simpl. intro H.
  apply andb_true_iff in H as [H HR]. apply andb_true_iff in H as [HL HQ].
  rewrite forallb_forall in HL, HQ, HR.
  unfold no_lf. apply forallb_forall. intros x Hx.
  apply in_app_iff in Hx as [Hx|Hx].
  - specialize (HL x Hx). now apply andb_true_iff in HL as [_ HL].
  - destruct Hx as [<-|Hx]; [reflexivity|].
    apply in_app_iff in Hx as [Hx|Hx].
    + specialize (HQ x Hx). apply andb_true_iff in HQ as [_ HQ].
      unfold is_line_terminator, LF in *. destruct (x =? 10); [discriminate|reflexivity].
    + destruct Hx as [<-|Hx]; [reflexivity|]. now apply HR.
Qed.

Lemma suggestions_of_join (ls : list (jsstr * jsstr * jsstr)) :
  forallb quoted_line_ok ls = true ->
  suggestions_of_lines (join_nl (map mkline ls)) = map quoted_content ls.
Proof.
  intro H. destruct ls as [|l ls]; [reflexivity|].
  unfold suggestions_of_lines. rewrite split_nl_join.
  - clear -H. induction (l :: ls) as [|l' ls' IH]; [reflexivity|].
    simpl in H. apply andb_true_iff in H as [Hl H].
    simpl. rewrite first_quoted_trim_line by exact Hl. simpl. f_equal. now apply IH.
  - rewrite forallb_forall in H |- *. intros x Hx. apply in_map_iff in Hx as [y [<- Hy]].
    apply mkline_no_lf, H, Hy.
  - discriminate.
Qed.

(** The parser on a text with one well-formed block after a prefix free of
    start markers. *)
Lemma parse_quoted_lines (P S W1 W2 : jsstr) (ls : list (jsstr * jsstr * jsstr)) :
  occurs START_MARKER P = false ->
  forallb is_ws W1 = true -> forallb is_ws W2 = true ->
  forallb quoted_line_ok ls = true ->
  occurs END_MARKER (W1 ++ join_nl (map mkline ls) ++ W2) = false ->
  parseSuggestions (P ++ START_MARKER ++ (W1 ++ join_nl (map mkline ls) ++ W2)
                      ++ END_MARKER ++ S)
  = map quoted_content ls.
Proof.
  intros HP HW1 HW2 Hls HB.
  set (B := W1 ++ join_nl (map mkline ls) ++ W2) in *.
  unfold parseSuggestions.
  replace (START_MARKER ++ B ++ END_MARKER ++ S) with (block B ++ S)
    by (unfold block; now rewrite <- !app_assoc).
  rewrite block_search_first by assumption.
  transitivity (suggestions_of_lines (trim B)); [now destruct B|].
  rewrite suggestions_of_lines_trim. unfold B.
  rewrite suggestions_of_lines_ws_prefix, suggestions_of_lines_ws_suffix by assumption.
  now apply suggestions_of_join.
Qed.

(** ** Suggestions and the page *)

Lemma processAndDisplaySuggestions_eq (s : jsstr) :
  processAndDisplaySuggestions s =
  match parseSuggestions s with
  | [] => ret tt
  | sug => appendChild (SuggestionsNode sug) ;;; ret tt
  end.
Proof.
  unfold processAndDisplaySuggestions, parseSuggestions.
  destruct (block_search s) as [[cap rest]|]; [|reflexivity].
  destruct cap; [reflexivity|]. now destruct (suggestions_of_lines _).
Qed.

Lemma set_node_content_override (id : nat) (c1 c2 : Content) (p : nat * Node) :
  set_node_content id c2 (set_node_content id c1 p) = set_node_content id c2 p.
Proof.
  destruct p as [i nd]. unfold set_node_content.
  destruct (Nat.eqb i id) eqn:E; [|now rewrite E].
  destruct nd; now rewrite E.
Qed.

Lemma consume_empty_chunk (bot : nat) (c : Chunk) (rest : list Chunk)
    (ending : StreamEnd) (buf : jsstr) (st : St) :
  consume bot (c :: Some [] :: rest) ending buf st = consume bot (c :: rest) ending buf st.
Proof.
  cbn [consume chunk_text]. rewrite app_nil_r.
  unfold bind, setContent, modify, set_children. simpl.
  rewrite map_map. erewrite map_ext by apply set_node_content_override.
  reflexivity.
Qed.

(** * Claims *)

(** C1 (counterexample).  The parser returns the lines of the FIRST start
    marker's block: a prefix [P] holding a start marker and a quoted line,
    an end marker inside the quoted text of [B], and a carriage return
    inside the quotes each change the result for a block [B] of one quoted
    line. *)
Lemma C1_counterexample :
  parseSuggestions (js "[SUGGESTIONS]" ++ [LF] ++ quoted "x" ++ [LF]
                      ++ START_MARKER ++ quoted "a" ++ END_MARKER ++ [])
    = [js "x"; js "a"]
  /\ parseSuggestions ([] ++ START_MARKER ++ quoted "[/SUGGESTIONS]" ++ END_MARKER ++ [])
    = []
  /\ parseSuggestions ([] ++ START_MARKER ++ (QUOTE :: js "a" ++ 13 :: js "b" ++ [QUOTE])
                      ++ END_MARKER ++ [])
    = [].
Proof. vm_compute. auto. Qed.

(** C1 (amended).  For a text [P ++ [SUGGESTIONS] ++ B ++ [/SUGGESTIONS] ++ S]
    whose prefix [P] holds no start marker, whose block [B] holds no end
    marker and is, up to surrounding whitespace, N newline-separated lines
    [L "Q" R] (no quote before the opening one, no quote nor line
    terminator inside), the parser returns exactly the N contents [Q], in
    order, with no deduplication and no cap. *)
Theorem C1_parser_returns_every_quoted_line (P S W1 W2 : jsstr)
    (ls : list (jsstr * jsstr * jsstr)) :
  occurs START_MARKER P = false ->
  forallb is_ws W1 = true -> forallb is_ws W2 = true ->
  forallb quoted_line_ok ls = true ->
  occurs END_MARKER (W1 ++ join_nl (map mkline ls) ++ W2) = false ->
  parseSuggestions (P ++ START_MARKER ++ (W1 ++ join_nl (map mkline ls) ++ W2)
                      ++ END_MARKER ++ S)
  = map quoted_content ls.
Proof. apply parse_quoted_lines. Qed.

Lemma C1_witness :
  let ls := [(js "", js "A?", js ""); (js "  ", js "A?", js " ");
             (js "", js "B?", js ""); (js "", js "C?", js ""); (js "", js "D?", js "")] in
  parseSuggestions (js "Hi" ++ START_MARKER ++ ([LF] ++ join_nl (map mkline ls) ++ [LF])
                      ++ END_MARKER ++ js "bye")
  = [js "A?"; js "A?"; js "B?"; js "C?"; js "D?"].
Proof.
  intro ls. apply (C1_parser_returns_every_quoted_line (js "Hi") (js "bye") [LF] [LF] ls);
    vm_compute; reflexivity.
Defined.

(** C2 (counterexample).  Mid-stream, with the start marker and one quoted
    line received but no end marker, the display text is not ["Olá!"]. *)
Lemma C2_counterexample : displayText partial_stream_buffer <> js "Olá!".
Proof. vm_compute. discriminate. Qed.

(** C2 (amended).  Only closed blocks are stripped: for that buffer the
    display text is the whole buffer, trimmed, raw start marker and quoted
    line included. *)
Theorem C2_partial_block_is_displayed :
  displayText partial_stream_buffer = partial_stream_buffer.
Proof. vm_compute. reflexivity. Qed.

(** C6.  Without a start marker, without an end marker, or without an end
    marker after the first start marker, the parser returns the empty
    sequence and [processAndDisplaySuggestions] returns normally with the
    page unchanged. *)
Theorem C6_parser_empty_without_marker_pair (s : jsstr) :
  occurs START_MARKER s = false \/ occurs END_MARKER s = false
  \/ (forall post, after_first_start s = Some post -> occurs END_MARKER post = false) ->
  parseSuggestions s = [] /\ forall st, processAndDisplaySuggestions s st = (Ok tt, st).
Proof.
  intro H.
  assert (Hn : ~ complete_pair s).
  { destruct H as [H|[H|H]].
    - intro Hp. apply complete_pair_occurs in Hp as [Hp _]. congruence.
    - intro Hp. apply complete_pair_occurs in Hp as [_ Hp]. congruence.
    - now apply first_start_no_end_no_pair. }
  apply no_pair_block_search in Hn.
  split.
  - unfold parseSuggestions. now rewrite Hn.
  - intro st. unfold processAndDisplaySuggestions. now rewrite Hn.
Qed.

Lemma C6_witness :
  (occurs START_MARKER (js "[/SUGGESTIONS] x [SUGGESTIONS]") = false
   \/ occurs END_MARKER (js "[/SUGGESTIONS] x [SUGGESTIONS]") = false
   \/ (forall post, after_first_start (js "[/SUGGESTIONS] x [SUGGESTIONS]") = Some post ->
                    occurs END_MARKER post = false))
  /\ parseSuggestions (js "[/SUGGESTIONS] x [SUGGESTIONS]") = [].
Proof.
  assert (H : occurs START_MARKER (js "[/SUGGESTIONS] x [SUGGESTIONS]") = false
   \/ occurs END_MARKER (js "[/SUGGESTIONS] x [SUGGESTIONS]") = false
   \/ (forall post, after_first_start (js "[/SUGGESTIONS] x [SUGGESTIONS]") = Some post ->
                    occurs END_MARKER post = false)).
  { right. right. intros post E. vm_compute in E. injection E as <-. reflexivity. }
  split; [exact H|]. apply (C6_parser_empty_without_marker_pair _ H).
Defined.

(** C7.  On a buffer with no start marker followed by an end marker,
    [displayText] is the buffer trimmed. *)
Theorem C7_displayText_without_pair_is_trim (b : jsstr) :
  ~ complete_pair b -> displayText b = trim b.
Proof. intro H. unfold displayText. now rewrite no_pair_replace_blocks. Qed.

Lemma C7_witness :
  ~ complete_pair partial_stream_buffer
  /\ displayText partial_stream_buffer = trim partial_stream_buffer.
Proof.
  assert (H : ~ complete_pair partial_stream_buffer).
  { intro Hp. apply complete_pair_occurs in Hp as [_ Hp]. vm_compute in Hp. discriminate. }
  split; [exact H|]. apply (C7_displayText_without_pair_is_trim _ H).
Defined.

(** C8.  [displayText] is a function of the buffer: evaluated twice on the
    same buffer it gives the same string; in the streaming loop, a chunk
    that appends nothing re-renders an identical bubble, so the page is the
    same as without that chunk. *)
Theorem C8_displayText_deterministic :
  (forall b, displayText b = displayText b)
  /\ (forall bot cs c ending buf st,
        consume bot (cs ++ [c; Some []]) ending buf st
        = consume bot (cs ++ [c]) ending buf st).
Proof.
  split; [reflexivity|].
  intros bot cs. induction cs as [|c0 cs IH]; intros c ending buf st.
  - apply consume_empty_chunk.
  - cbn [app consume]. unfold bind.
    destruct (setContent _ _ st) as [[u|e] st']; [apply IH|reflexivity].
Qed.

(** C9.  A line holding an empty quoted string is kept: the parser yields
    an empty suggestion at its position and a chip with empty text is
    created for it. *)
Theorem C9_empty_quoted_line_kept (P Sfx W1 W2 L R : jsstr)
    (pre post : list (jsstr * jsstr * jsstr)) (st : St) :
  let ls := pre ++ (L, [], R) :: post in
  let text := P ++ START_MARKER ++ (W1 ++ join_nl (map mkline ls) ++ W2)
                ++ END_MARKER ++ Sfx in
  occurs START_MARKER P = false ->
  forallb is_ws W1 = true -> forallb is_ws W2 = true ->
  forallb quoted_line_ok ls = true ->
  occurs END_MARKER (W1 ++ join_nl (map mkline ls) ++ W2) = false ->
  parseSuggestions text = map quoted_content pre ++ [] :: map quoted_content post
  /\ processAndDisplaySuggestions text st
     = (Ok tt, set_children (children st ++
                 [(nextId st, SuggestionsNode (map quoted_content pre ++ []
                                                :: map quoted_content post))])
                 (S (nextId st)) st).
Proof.
  intros ls text HP HW1 HW2 Hls HB.
  assert (E : parseSuggestions text = map quoted_content pre ++ [] :: map quoted_content post).
  { unfold text. rewrite parse_quoted_lines by assumption. unfold ls.
    now rewrite map_app. }
  split; [exact E|].
  rewrite processAndDisplaySuggestions_eq, E.
  destruct (map quoted_content pre); reflexivity.
Qed.

Lemma C9_witness :
  parseSuggestions (START_MARKER ++ ([LF] ++ join_nl (map mkline
      [(js "", js "A?", js ""); (js "", js "", js ""); (js "", js "B?", js "")]) ++ [LF])
      ++ END_MARKER ++ [])
  = [js "A?"; []; js "B?"].
Proof.
  refine (proj1 (C9_empty_quoted_line_kept [] [] [LF] [LF] [] []
                   [(js "", js "A?", js "")] [(js "", js "B?", js "")]
                   (MkSt None 0 [] false false false [] [] false []) _ _ _ _ _));
    vm_compute; reflexivity.
Defined.

Lemma opens_blocks (bs : list (jsstr * jsstr)) :
  opens (List.concat (map (fun bt => block (fst bt) ++ snd bt) bs)).
Proof.
  destruct bs as [|[B T] bs]; [exact I|].
  cbn [map List.concat fst snd]. rewrite <- app_assoc, block_cons. reflexivity.
Qed.

Lemma replace_blocks_blocks (bs : list (jsstr * jsstr)) :
  Forall (fun bt => occurs END_MARKER (fst bt) = false
                    /\ occurs START_MARKER (snd bt) = false) bs ->
  replace_blocks O (List.concat (map (fun bt => block (fst bt) ++ snd bt) bs))
  = List.concat (map snd bs).
Proof.
  induction bs as [|[B T] bs IH]; intro H; [reflexivity|].
  inversion H as [|? ? [HB HT] Hbs]; subst.
  cbn [map List.concat fst snd]. rewrite <- app_assoc, replace_blocks_block by exact HB.
  rewrite replace_blocks_plain by (auto using opens_blocks).
  now rewrite IH.
Qed.

(** C3 (counterexample).  A stray start marker before the first
    well-formed block is taken as the block's start: the parser also
    returns the quoted line that follows it, and the display drops that
    line, which lies outside both well-formed blocks. *)
Lemma C3_counterexample :
  let T0 := js "[SUGGESTIONS]" ++ [LF] ++ quoted "z" ++ [LF] in
  let bs := [([LF] ++ quoted "a" ++ [LF], []); ([LF] ++ quoted "b" ++ [LF], [])] in
  parseSuggestions (with_blocks T0 bs) = [js "z"; js "a"]
  /\ parseSuggestions (block ([LF] ++ quoted "a" ++ [LF])) = [js "a"]
  /\ displayText (with_blocks T0 bs) = [].
Proof. vm_compute. auto. Qed.

(** C3 (amended).  For a text made of a leading part and two or more
    closed blocks, each followed by plain text, where no plain part holds a
    start marker and no block body holds an end marker: the parser returns
    what it returns for the first block alone, and the display text is the
    concatenation of the plain parts, trimmed. *)
Theorem C3_first_block_honored_all_blocks_hidden (T0 B1 T1 : jsstr)
    (bs : list (jsstr * jsstr)) :
  bs <> [] ->
  occurs START_MARKER T0 = false ->
  Forall (fun bt => occurs END_MARKER (fst bt) = false
                    /\ occurs START_MARKER (snd bt) = false) ((B1, T1) :: bs) ->
  parseSuggestions (with_blocks T0 ((B1, T1) :: bs)) = parseSuggestions (block B1)
  /\ displayText (with_blocks T0 ((B1, T1) :: bs))
     = trim (T0 ++ List.concat (map snd ((B1, T1) :: bs))).
Proof.
  intros _ H0 H. split.
  - inversion H as [|? ? [HB _] _]; subst.
    unfold with_blocks, parseSuggestions. cbn [map List.concat fst snd].
    rewrite <- app_assoc, block_search_first by assumption.
    rewrite <- (app_nil_r (block B1)), <- (app_nil_l (block B1 ++ [])).
    rewrite block_search_first by (reflexivity || assumption). reflexivity.
  - unfold displayText, with_blocks.
    rewrite replace_blocks_plain by (auto using opens_blocks).
    now rewrite replace_blocks_blocks.
Qed.

Lemma C3_witness :
  parseSuggestions (with_blocks (js "Hello")
                      [([LF] ++ quoted "a" ++ [LF], js " mid "); ([LF] ++ quoted "b", js "end ")])
  = [js "a"]
  /\ displayText (with_blocks (js "Hello")
                    [([LF] ++ quoted "a" ++ [LF], js " mid "); ([LF] ++ quoted "b", js "end ")])
     = js "Hello mid end".
Proof.
  assert (H0 : occurs START_MARKER (js "Hello") = false) by (vm_compute; reflexivity).
  assert (H1 : Forall (fun bt => occurs END_MARKER (fst bt) = false
                                 /\ occurs START_MARKER (snd bt) = false)
                 [([LF] ++ quoted "a" ++ [LF], js " mid "); ([LF] ++ quoted "b", js "end ")])
    by (repeat constructor; vm_compute; reflexivity).
  assert (Hne : [([LF] ++ quoted "b", js "end ")] <> []) by discriminate.
  destruct (C3_first_block_honored_all_blocks_hidden _ _ _ _ Hne H0 H1) as [E1 E2].
  split; [etransitivity; [exact E1|] | etransitivity; [exact E2|]];
    vm_compute; reflexivity.
Defined.

(** ** The turn: streaming failures and the no-op guard *)

Lemma setContent_override (id : nat) (c1 c2 : Content) (st : St) :
  setContent id c2 (snd (setContent id c1 st)) = setContent id c2 st.
Proof.
  unfold setContent, modify, set_children. simpl.
  rewrite map_map. erewrite map_ext by apply set_node_content_override.
  reflexivity.
Qed.

(** A stream that throws leaves the page as it was, up to the content of
    the bot bubble, which the catch handler overwrites. *)
Lemma consume_throws (bot : nat) (chunks : list Chunk) (e : Thrown) (buf : jsstr)
    (st : St) :
  exists st', consume bot chunks (StreamThrows e) buf st = (Exn e, st')
              /\ forall h, setContent bot h st' = setContent bot h st.
Proof.
  revert buf st. induction chunks as [|c cs IH]; intros buf st.
  - now exists st.
  - cbn [consume]. unfold bind.
    destruct (IH (buf ++ chunk_text c) (snd (setContent bot (CMarkdown
                (displayText (buf ++ chunk_text c))) st))) as [st' [E1 E2]].
    exists st'. split.
    + exact E1.
    + intro h. rewrite E2. apply setContent_override.
Qed.

Lemma set_content_fresh (n : nat) (c : Content) (cs : list (nat * Node)) :
  Forall (fun p => (fst p < n)%nat) cs -> map (set_node_content n c) cs = cs.
Proof.
  induction cs as [|[i nd] cs IH]; intro H; [reflexivity|].
  inversion H as [|? ? Hi Hcs]; subst. simpl in Hi.
  simpl. rewrite IH by exact Hcs.
  replace (Nat.eqb i n) with false by (symmetry; apply Nat.eqb_neq; lia).
  reflexivity.
Qed.

Lemma remove_first_suggestions_msgs (cs : list (nat * Node)) (a b : nat * Node)
    (sa sb : Sender) (ca cb : Content) :
  a = (fst a, MsgNode sa ca) -> b = (fst b, MsgNode sb cb) ->
  remove_first_suggestions (cs ++ [a; b]) = remove_first_suggestions cs ++ [a; b].
Proof.
  intros Ha Hb. induction cs as [|[i nd] cs IH].
  - rewrite Ha, Hb. reflexivity.
  - destruct nd; simpl; [now rewrite IH|reflexivity].
Qed.

Lemma remove_first_suggestions_fresh (n : nat) (cs : list (nat * Node)) :
  Forall (fun p => (fst p < n)%nat) cs ->
  Forall (fun p => (fst p < n)%nat) (remove_first_suggestions cs).
Proof.
  induction cs as [|[i nd] cs IH]; intro H; [constructor|].
  inversion H; subst. destruct nd; simpl; auto.
Qed.

(** With an empty message or no chat session, a send returns at once. *)
Lemma send_guard_noop (msg : jsstr) (remote : Response) (st : St) :
  msg = [] \/ chat st = None ->
  sendMessageAndStreamResponse msg remote st = (Ok tt, st).
Proof.
  intro H. unfold sendMessageAndStreamResponse, bind, get.
  destruct H as [->|H]; [reflexivity|]. rewrite H. now destruct msg.
Qed.

Lemma bind_step {A B} (m : M A) (k : A -> M B) (st : St) (a : A) (st' : St) :
  m st = (Ok a, st') -> bind m k st = k a st'.
Proof. unfold bind. now intros ->. Qed.

Lemma bind_exn {A B} (m : M A) (k : A -> M B) (st : St) (e : Thrown) (st' : St) :
  m st = (Exn e, st') -> bind m k st = (Exn e, st').
Proof. unfold bind. now intros ->. Qed.

Ltac norm_st :=
  cbn [set_children chat nextId children inputDisabled sendDisabled spinner
       placeholder inputValue inputFocused remoteCalls].

Lemma run_sends_noop (attempts : list (jsstr * Response)) (st : St) :
  chat st = None -> run_sends attempts st = (Ok tt, st).
Proof.
  intro H. induction attempts as [|[m r] attempts IH]; [reflexivity|].
  cbn [run_sends]. rewrite (bind_step _ _ st tt st); [exact IH|].
  apply send_guard_noop. now right.
Qed.

(** C5 (counterexample).  When the stream throws a value that is not an
    [Error], the retry message carries a fixed text, not the thrown
    value's text. *)
Lemma C5_counterexample :
  children (snd (sendMessageAndStreamResponse (js "hi")
                   (Streamed [Some (js "Partial answer")] (StreamThrows (NonError (js "boom"))))
                   (MkSt (Some (MkChat [])) 0 [] false false false [] [] false [])))
  = [(0%nat, MsgNode User (CText (js "hi")));
     (1%nat, MsgNode Bot (CHtml (RETRY_PREFIX ++ js "An unknown error occurred." ++ RETRY_SUFFIX)))]
  /\ occurs (js "boom") (RETRY_PREFIX ++ js "An unknown error occurred." ++ RETRY_SUFFIX) = false.
Proof. vm_compute. split; reflexivity. Qed.

(** C5 (amended).  When the stream throws after any number of chunks, the
    send still returns normally; the bot bubble ends with the retry message
    followed by the error's message (for an [Error]; a fixed text
    otherwise) instead of the rendered partial buffer, no suggestion
    container is added, and the controls are enabled again. *)
Theorem C5_stream_failure_caught (msg : jsstr) (st : St) (c : ChatSession)
    (chunks : list Chunk) (e : Thrown) :
  msg <> [] -> chat st = Some c -> ids_fresh st ->
  let '(r, st') := sendMessageAndStreamResponse msg (Streamed chunks (StreamThrows e)) st in
  r = Ok tt /\
  children st' = remove_first_suggestions (children st)
                 ++ [(nextId st, MsgNode User (CText msg));
                     (S (nextId st), MsgNode Bot (CHtml (RETRY_PREFIX ++ errorMessageOf e
                                                          ++ RETRY_SUFFIX)))]
  /\ inputDisabled st' = false /\ sendDisabled st' = false /\ spinner st' = false
  /\ remoteCalls st' = remoteCalls st ++ [msg].
Proof.
  intros Hm Hc Hf.
  unfold sendMessageAndStreamResponse.
  rewrite (bind_step get _ st st st eq_refl). cbn beta. rewrite Hc.
  destruct msg as [|m ms]; [congruence|]. cbn iota.
  do 5 (erewrite bind_step by reflexivity; norm_st).
  unfold try_catch_finally.
  erewrite bind_step by reflexivity. cbn [fst snd]. norm_st.
  match goal with
  | |- context[bind (consume ?b ?cs ?en ?buf) ?k ?s] =>
      destruct (consume_throws b cs e buf s) as [st'' [E1 E2]]
  end.
  erewrite bind_exn by exact E1. cbn iota beta.
  rewrite E2.
  unfold setContent, modify, setLoading, focusInput, bind. norm_st.
  unfold modify. norm_st. cbn beta iota. norm_st.
  rewrite map_app, (set_content_fresh _ _ _ Hf). cbn [map].
  replace (set_node_content (nextId st) (CText (m :: ms)) (nextId st, MsgNode User CEmpty))
    with (nextId st, MsgNode User (CText (m :: ms)))
    by (unfold set_node_content; now rewrite Nat.eqb_refl).
  rewrite <- app_assoc. cbn [app].
  rewrite (remove_first_suggestions_msgs _ _ _ User Bot (CText (m :: ms)) CEmpty) by reflexivity.
  rewrite map_app, set_content_fresh.
  - cbn [map set_node_content]. rewrite Nat.eqb_refl.
    replace (Nat.eqb (nextId st) (S (nextId st))) with false
      by (symmetry; apply Nat.eqb_neq; lia).
    repeat split; reflexivity.
  - eapply Forall_impl; [|apply remove_first_suggestions_fresh, Hf]. simpl. intros; lia.
Qed.

Lemma C5_witness :
  let st := MkSt (Some (MkChat (js "gemini-2.5-flash"))) 3%nat
              [(1%nat, MsgNode Bot (CText (js "x"))); (2%nat, SuggestionsNode [js "s"])]
              false false false [] [] false [] in
  let '(r, st') := sendMessageAndStreamResponse (js "hi")
                     (Streamed [Some (js "Partial "); Some (js "answer")]
                               (StreamThrows (ErrorObj (js "network down")))) st in
  r = Ok tt /\
  children st' = remove_first_suggestions (children st)
                 ++ [(nextId st, MsgNode User (CText (js "hi")));
                     (S (nextId st), MsgNode Bot (CHtml (RETRY_PREFIX ++ js "network down"
                                                          ++ RETRY_SUFFIX)))]
  /\ inputDisabled st' = false /\ sendDisabled st' = false /\ spinner st' = false
  /\ remoteCalls st' = remoteCalls st ++ [js "hi"].
Proof.
  intro st.
  apply (C5_stream_failure_caught (js "hi") st (MkChat (js "gemini-2.5-flash"))
           [Some (js "Partial "); Some (js "answer")] (ErrorObj (js "network down"))).
  - discriminate.
  - reflexivity.
  - repeat constructor.
Defined.

(** C4.  Without an API key, initialisation returns normally in the
    disabled state: input and send controls disabled, exactly one bubble
    (the configuration error) appended, no session and no remote call;
    every later send attempt is a no-op. *)
Theorem C4_missing_key_disables_app (st0 : St) :
  chat st0 = None -> ids_fresh st0 ->
  let '(r, st1) := initializeApp None st0 in
  r = Ok tt /\ inputDisabled st1 = true /\ sendDisabled st1 = true
  /\ chat st1 = None
  /\ children st1 = children st0 ++ [(nextId st0, MsgNode Bot (CHtml CONFIG_ERROR_HTML))]
  /\ remoteCalls st1 = remoteCalls st0
  /\ (forall attempts, run_sends attempts st1 = (Ok tt, st1)).
Proof.
  intros Hc Hf. unfold initializeApp, try_catch_finally. cbn [throw].
  erewrite bind_step by reflexivity. norm_st.
  erewrite bind_step by reflexivity. norm_st.
  unfold setContent, disableApp, modify, ret. norm_st. cbn beta iota. norm_st.
  rewrite map_app, (set_content_fresh _ _ _ Hf). cbn [map set_node_content].
  rewrite Nat.eqb_refl.
  repeat split; auto.
  intro attempts. apply run_sends_noop. exact Hc.
Qed.

Lemma C4_witness :
  let '(r, st1) := initializeApp None (MkSt None 0 [] false false false [] [] false []) in
  r = Ok tt /\ inputDisabled st1 = true /\ sendDisabled st1 = true
  /\ chat st1 = None
  /\ children st1 = [] ++ [(0%nat, MsgNode Bot (CHtml CONFIG_ERROR_HTML))]
  /\ remoteCalls st1 = []
  /\ (forall attempts, run_sends attempts st1 = (Ok tt, st1)).
Proof.
  apply (C4_missing_key_disables_app (MkSt None 0 [] false false false [] [] false []));
    [reflexivity | constructor].
Defined.

(** C10.  A send with an empty message, or while no chat session exists,
    returns at once with the page unchanged (no bubble, no loading toggle,
    no container removed, no remote call); so does a form submission whose
    trimmed input is empty. *)
Theorem C10_send_guard_is_noop (msg : jsstr) (remote : Response) (st : St) :
  (msg = [] \/ chat st = None -> sendMessageAndStreamResponse msg remote st = (Ok tt, st))
  /\ (trim (inputValue st) = [] -> handleFormSubmit remote st = (Ok tt, st)).
Proof.
  split; [apply send_guard_noop|].
  intro H. unfold handleFormSubmit, bind, get. cbv beta iota zeta. now rewrite H.
Qed.

Lemma C10_witness :
  let st := MkSt None 1 [(0%nat, MsgNode Bot (CHtml CONFIG_ERROR_HTML))] true true false
              DISABLED_PLACEHOLDER (js "  ") false [] in
  sendMessageAndStreamResponse (js "hello") (Streamed [Some (js "x")] EndOfStream) st
    = (Ok tt, st)
  /\ handleFormSubmit (Streamed [Some (js "x")] EndOfStream) st = (Ok tt, st).
Proof.
  intro st.
  destruct (C10_send_guard_is_noop (js "hello") (Streamed [Some (js "x")] EndOfStream) st)
    as [H1 H2].
  split; [apply H1; right; reflexivity | apply H2; vm_compute; reflexivity].
Defined.

(** * Further properties of the page *)

Lemma consume_ok (bot : nat) (cs : list Chunk) (buf : jsstr) (st : St) :
  consume bot cs EndOfStream buf st
  = (Ok (buf ++ stream_text cs),
     match cs with
     | [] => st
     | _ => snd (setContent bot (CMarkdown (displayText (buf ++ stream_text cs))) st)
     end).
Proof.
  revert buf st. induction cs as [|c cs IH]; intros buf st.
  - cbn. now rewrite app_nil_r.
  - cbn [consume]. unfold bind at 1.
    change (setContent bot (CMarkdown (displayText (buf ++ chunk_text c))) st)
      with (Ok tt, snd (setContent bot (CMarkdown (displayText (buf ++ chunk_text c))) st)).
    cbv iota beta. rewrite IH.
    replace (buf ++ stream_text (c :: cs)) with ((buf ++ chunk_text c) ++ stream_text cs)
      by (unfold stream_text; cbn [map List.concat]; now rewrite app_assoc).
    destruct cs; [unfold stream_text; cbn [map List.concat]; now rewrite !app_nil_r|].
    now rewrite setContent_override.
Qed.

Lemma set_content_last (cs : list (nat * Node)) (n : nat) (a : nat * Node) (sd : Sender)
    (c0 c : Content) :
  Forall (fun p => (fst p < n)%nat) cs -> (fst a < n)%nat ->
  map (set_node_content n c) (cs ++ [a; (n, MsgNode sd c0)]) = cs ++ [a; (n, MsgNode sd c)].
Proof.
  intros Hcs Ha. rewrite map_app, set_content_fresh by exact Hcs.
  destruct a as [i nd]. simpl in Ha. cbn [map set_node_content].
  replace (Nat.eqb i n) with false by (symmetry; apply Nat.eqb_neq; lia).
  now rewrite Nat.eqb_refl.
Qed.

Lemma send_turn (msg : jsstr) (remote : Response) (st : St) (c : ChatSession) :
  msg <> [] -> chat st = Some c -> ids_fresh st ->
  sendMessageAndStreamResponse msg remote st = (Ok tt, after_turn msg remote st).
Proof.
  intros Hm Hc Hf.
  unfold sendMessageAndStreamResponse.
  rewrite (bind_step get _ st st st eq_refl). cbn beta. rewrite Hc.
  destruct msg as [|m ms]; [congruence|]. cbn iota.
  do 5 (erewrite bind_step by reflexivity; norm_st).
  unfold try_catch_finally.
  rewrite map_app, (set_content_fresh _ _ _ Hf). cbn [map].
  replace (set_node_content (nextId st) (CText (m :: ms)) (nextId st, MsgNode User CEmpty))
    with (nextId st, MsgNode User (CText (m :: ms)))
    by (unfold set_node_content; now rewrite Nat.eqb_refl).
  rewrite <- app_assoc. cbn [app].
  rewrite (remove_first_suggestions_msgs _ _ _ User Bot (CText (m :: ms)) CEmpty) by reflexivity.
  norm_st.
  assert (Hr : Forall (fun p => (fst p < S (nextId st))%nat) (remove_first_suggestions (children st)))
    by (eapply Forall_impl; [|apply remove_first_suggestions_fresh, Hf]; simpl; intros; lia).
  unfold set_children; norm_st.
  unfold sendMessageStream.
  destruct remote as [e|cs [|e]].
  - erewrite bind_exn by (erewrite bind_step by reflexivity; reflexivity).
    norm_st. unfold setContent, modify, set_children. norm_st. cbv beta iota.
    unfold setLoading, focusInput, bind, modify. norm_st.
    unfold after_turn. cbn [bot_final turn_suggestions suggestions_nodes List.length app].
    rewrite set_content_last by (auto || (simpl; lia)). rewrite Nat.add_0_r. reflexivity.
  - erewrite bind_step by (erewrite bind_step by reflexivity; reflexivity).
    cbn [fst snd]. erewrite bind_step by apply consume_ok. rewrite app_nil_l.
    rewrite processAndDisplaySuggestions_eq.
    unfold after_turn. cbn [bot_final turn_suggestions].
    destruct cs as [|c0 cs'].
    + norm_st. cbn. rewrite Nat.add_0_r. reflexivity.
    + unfold setContent, modify, set_children. norm_st.
      rewrite set_content_last by (auto || (simpl; lia)).
      destruct (parseSuggestions (stream_text (c0 :: cs'))) as [|s1 ss] eqn:Ep.
      * cbn. rewrite Nat.add_0_r. reflexivity.
      * cbn. rewrite <- app_assoc. cbn [app]. unfold focusInput, modify. cbn.
        rewrite Nat.add_1_r. reflexivity.
  - erewrite bind_step by (erewrite bind_step by reflexivity; reflexivity).
    cbn [fst snd].
    match goal with
    | |- context[bind (consume ?b ?cs ?en ?buf) ?k ?s] =>
        destruct (consume_throws b cs e buf s) as [st'' [E1 E2]]
    end.
    erewrite bind_exn by exact E1. cbv iota beta.
    rewrite E2.
    unfold setContent, modify, set_children. norm_st. cbv beta iota.
    unfold setLoading, focusInput, bind, modify. norm_st.
    unfold after_turn. cbn [bot_final turn_suggestions suggestions_nodes List.length app].
    rewrite set_content_last by (auto || (simpl; lia)). rewrite Nat.add_0_r. now destruct cs.
Qed.

Lemma prefixb_app (m s t : jsstr) : prefixb m s = true -> prefixb m (s ++ t) = true.
Proof.
  revert s. induction m as [|x m IH]; intros s H; [reflexivity|].
  destruct s as [|c s]; [discriminate|].
  simpl in *. apply andb_true_iff in H as [H1 H2]. now rewrite H1, IH.
Qed.

Lemma prefixb_app_false (m s t : jsstr) :
  (List.length m <= List.length s)%nat -> prefixb m s = false -> prefixb m (s ++ t) = false.
Proof.
  revert s. induction m as [|x m IH]; intros s Hl H; [discriminate|].
  destruct s as [|c s]; [simpl in Hl; lia|].
  simpl in *. destruct (x =? c); [|reflexivity]. simpl in *. apply IH; [lia|exact H].
Qed.

Lemma skipn_app_long (n : nat) (s t : jsstr) :
  (n <= List.length s)%nat -> skipn n (s ++ t) = skipn n s ++ t.
Proof.
  intro H. rewrite skipn_app. replace (n - List.length s)%nat with O by lia. reflexivity.
Qed.

Lemma prefixb_length (m s : jsstr) :
  prefixb m s = true -> (List.length m <= List.length s)%nat.
Proof. intro H. rewrite (prefixb_split _ _ H), length_app. lia. Qed.

Lemma lazy_until_end_app (s t cap rest : jsstr) :
  lazy_until_end s = Some (cap, rest) -> lazy_until_end (s ++ t) = Some (cap, rest ++ t).
Proof.
  revert cap rest. induction s as [|c s IH]; intros cap rest H.
  - rewrite lazy_until_end_eq in H. rewrite end_marker_val in H. discriminate.
  - rewrite lazy_until_end_eq in H. rewrite <- app_comm_cons, lazy_until_end_eq.
    destruct (prefixb END_MARKER (c :: s)) eqn:E.
    + injection H as <- <-.
      pose proof (prefixb_app _ _ t E) as E2. rewrite <- app_comm_cons in E2.
      rewrite E2, app_comm_cons, skipn_app_long by (apply prefixb_length in E; exact E).
      reflexivity.
    + destruct (lazy_until_end s) as [[cap' rest']|] eqn:E'; [|discriminate].
      injection H as <- <-.
      assert (Hl : (List.length END_MARKER <= List.length (c :: s))%nat).
      { apply lazy_until_end_some in E'. rewrite E'. cbn [List.length].
        rewrite !length_app. lia. }
      pose proof (prefixb_app_false _ _ t Hl E) as E2. rewrite <- app_comm_cons in E2.
      rewrite E2. now rewrite (IH _ _ eq_refl).
Qed.

Lemma block_match_at_app (s t cap rest : jsstr) :
  block_match_at s = Some (cap, rest) -> block_match_at (s ++ t) = Some (cap, rest ++ t).
Proof.
  unfold block_match_at. destruct (prefixb START_MARKER s) eqn:E; [|discriminate].
  intro H. rewrite (prefixb_app _ _ t E), skipn_app_long by (now apply prefixb_length).
  now apply lazy_until_end_app.
Qed.

Lemma lazy_until_end_occurs (s : jsstr) :
  occurs END_MARKER s = true -> lazy_until_end s <> None.
Proof.
  induction s as [|c s IH]; intro H.
  - rewrite end_marker_val in H. discriminate.
  - rewrite lazy_until_end_eq. cbn [occurs] in H.
    destruct (prefixb END_MARKER (c :: s)) eqn:E; [discriminate|].
    simpl in H. destruct (lazy_until_end s) as [[? ?]|]; [discriminate|].
    now apply IH.
Qed.

Lemma block_search_some (s cap rest : jsstr) :
  block_search s = Some (cap, rest) ->
  exists pre, s = pre ++ START_MARKER ++ cap ++ END_MARKER ++ rest.
Proof.
  induction s as [|c s IH]; intro H; rewrite block_search_eq in H.
  - destruct (block_match_at []) as [r|] eqn:E; [|discriminate].
    injection H as ->. exists []. now apply block_match_at_some.
  - destruct (block_match_at (c :: s)) as [r|] eqn:E.
    + injection H as ->. exists []. now apply block_match_at_some.
    + destruct (IH H) as [pre Hs]. exists (c :: pre). now rewrite Hs.
Qed.

Lemma block_search_app (s t cap rest : jsstr) :
  block_search s = Some (cap, rest) -> block_search (s ++ t) = Some (cap, rest ++ t).
Proof.
  revert cap rest. induction s as [|c s IH]; intros cap rest H.
  - destruct (block_search_some _ _ _ H) as [pre Hs].
    apply (f_equal (@List.length N)) in Hs. rewrite !length_app, start_marker_val in Hs.
    simpl in Hs. lia.
  - rewrite block_search_eq in H. rewrite <- app_comm_cons, block_search_eq.
    destruct (block_match_at (c :: s)) as [r|] eqn:E.
    + injection H as ->. pose proof (block_match_at_app _ t _ _ E) as E2.
      rewrite <- app_comm_cons in E2. now rewrite E2.
    + destruct (block_search_some _ _ _ H) as [pre Hs].
      assert (Hb : block_match_at (c :: s ++ t) = None).
      { unfold block_match_at in E |- *.
        destruct (prefixb START_MARKER (c :: s)) eqn:P.
        - exfalso. revert E. apply lazy_until_end_occurs.
          set (X := cap ++ END_MARKER ++ rest). rewrite Hs.
          change (occurs END_MARKER (skipn 12 (pre ++ START_MARKER ++ X)) = true).
          rewrite app_assoc, skipn_app_long
            by (rewrite length_app, start_marker_val; simpl; lia).
          apply occurs_app_r. unfold X. apply occurs_app_r, occurs_self.
        - assert (Hl : (List.length START_MARKER <= List.length (c :: s))%nat)
            by (rewrite Hs, start_marker_val; cbn [List.length]; rewrite !length_app;
                cbn [List.length]; lia).
          pose proof (prefixb_app_false _ _ t Hl P) as P2. rewrite <- app_comm_cons in P2.
          now rewrite P2. }
      rewrite Hb. now apply IH.
Qed.

Lemma block_search_pair (pre mid post : jsstr) :
  block_search (pre ++ START_MARKER ++ mid ++ END_MARKER ++ post) <> None.
Proof.
  induction pre as [|c pre IH].
  - rewrite app_nil_l, block_search_eq. unfold block_match_at.
    rewrite prefixb_self, skipn_self.
    destruct (lazy_until_end (mid ++ END_MARKER ++ post)) as [r|] eqn:E; [discriminate|].
    exfalso. revert E. apply lazy_until_end_occurs, occurs_app_r, occurs_self.
  - rewrite <- app_comm_cons, block_search_eq.
    destruct (block_match_at _); [discriminate|exact IH].
Qed.

Lemma parseSuggestions_extend (s t : jsstr) :
  complete_pair s -> parseSuggestions (s ++ t) = parseSuggestions s.
Proof.
  intros [pre [mid [post ->]]].
  pose proof (block_search_pair pre mid post) as H.
  unfold parseSuggestions.
  destruct (block_search (pre ++ START_MARKER ++ mid ++ END_MARKER ++ post))
    as [[cap rest]|] eqn:E; [|congruence].
  now rewrite (block_search_app _ t _ _ E).
Qed.


Lemma quote_scan_ok (s q : jsstr) : quote_scan s = Some q -> forallb chip_char_ok q = true.
Proof.
  revert q. induction s as [|c s IH]; intros q H; [discriminate|].
  simpl in H. destruct (c =? QUOTE) eqn:E1; [now injection H as <-|].
  destruct (is_line_terminator c) eqn:E2; [discriminate|].
  destruct (quote_scan s) as [q'|] eqn:E3; [|discriminate].
  injection H as <-. simpl. unfold chip_char_ok at 1. rewrite E1, E2. simpl. now apply IH.
Qed.

Lemma first_quoted_ok (s q : jsstr) : first_quoted s = Some q -> forallb chip_char_ok q = true.
Proof.
  revert q. induction s as [|c s IH]; intros q H; [discriminate|].
  simpl in H. destruct (c =? QUOTE).
  - destruct (quote_scan s) as [q'|] eqn:E; [injection H as <-; now apply (quote_scan_ok s)|].
    now apply IH.
  - now apply IH.
Qed.

Lemma keep_matches_in (ms : list (option jsstr)) (q : jsstr) :
  In q (keep_matches ms) -> In (Some q) ms.
Proof.
  induction ms as [|[q'|] ms IH]; simpl; intro H.
  - contradiction.
  - destruct H as [<-|H]; [now left|right; now apply IH].
  - right. now apply IH.
Qed.

Lemma parseSuggestions_chars (s q : jsstr) :
  In q (parseSuggestions s) -> forallb chip_char_ok q = true.
Proof.
  unfold parseSuggestions.
  destruct (block_search s) as [[cap rest]|]; [|contradiction].
  destruct cap as [|c cap]; [contradiction|].
  unfold suggestions_of_lines. intro H. apply keep_matches_in, in_map_iff in H.
  destruct H as [line [H _]]. now apply (first_quoted_ok (trim line)).
Qed.

Lemma count_suggestions_app (a b : list (nat * Node)) :
  count_suggestions (a ++ b) = (count_suggestions a + count_suggestions b)%nat.
Proof. unfold count_suggestions. now rewrite filter_app, length_app. Qed.

Lemma count_remove_first (cs : list (nat * Node)) :
  count_suggestions (remove_first_suggestions cs) = (count_suggestions cs - 1)%nat.
Proof.
  unfold count_suggestions.
  induction cs as [|[i [sd c|chips]] cs IH]; simpl; [reflexivity| |lia].
  rewrite IH. reflexivity.
Qed.

Lemma count_suggestions_nodes (id : nat) (sug : list jsstr) :
  count_suggestions (suggestions_nodes id sug) = List.length (suggestions_nodes id sug)
  /\ (List.length (suggestions_nodes id sug) <= 1)%nat.
Proof. destruct sug; simpl; split; auto. Qed.

Lemma page_ok_after_turn (msg : jsstr) (remote : Response) (st : St) :
  page_ok st -> page_ok (after_turn msg remote st).
Proof.
  intros [Hf Hc]. unfold after_turn. set (n := nextId st).
  set (sn := suggestions_nodes (S (S n)) (turn_suggestions remote)).
  pose proof (count_suggestions_nodes (S (S n)) (turn_suggestions remote)) as [H1 H2].
  fold sn in H1, H2. split; cbn [children nextId].
  - unfold ids_fresh. cbn [children nextId].
    apply Forall_app. split; [|apply Forall_app; split].
    + eapply Forall_impl; [|apply remove_first_suggestions_fresh, Hf]. simpl.
      unfold n. intros; lia.
    + constructor; [simpl; lia|constructor; [simpl; lia|constructor]].
    + unfold sn. destruct (turn_suggestions remote); cbn; [constructor|].
      constructor; [simpl; lia|constructor].
  - rewrite !count_suggestions_app, count_remove_first, H1. simpl. lia.
Qed.

Lemma send_page_ok (msg : jsstr) (remote : Response) (st : St) :
  page_ok st ->
  exists st', sendMessageAndStreamResponse msg remote st = (Ok tt, st') /\ page_ok st'.
Proof.
  intro H.
  destruct msg as [|m ms]; [exists st; split; [apply send_guard_noop; now left|exact H]|].
  destruct (chat st) as [c|] eqn:Hc.
  - exists (after_turn (m :: ms) remote st). split.
    + apply (send_turn _ _ _ c); [discriminate|exact Hc|apply H].
    + now apply page_ok_after_turn.
  - exists st. split; [apply send_guard_noop; now right|exact H].
Qed.

Lemma run_sends_page_ok (attempts : list (jsstr * Response)) (st : St) :
  page_ok st ->
  exists st', run_sends attempts st = (Ok tt, st') /\ page_ok st'.
Proof.
  revert st. induction attempts as [|[m r] attempts IH]; intros st H.
  - now exists st.
  - destruct (send_page_ok m r st H) as [st1 [E1 H1]].
    cbn [run_sends]. rewrite (bind_step _ _ _ _ _ E1). now apply IH.
Qed.

Lemma handleFormSubmit_eq (remote : Response) (st : St) :
  handleFormSubmit remote st =
  match trim (inputValue st) with
  | [] => (Ok tt, st)
  | v => sendMessageAndStreamResponse v remote (snd (resetForm st))
  end.
Proof. unfold handleFormSubmit, bind, get. cbv beta iota zeta. now destruct (trim _). Qed.

Lemma send_returns (msg : jsstr) (remote : Response) (st : St) :
  ids_fresh st -> fst (sendMessageAndStreamResponse msg remote st) = Ok tt.
Proof.
  intro Hf. destruct msg as [|m ms]; [now rewrite send_guard_noop by now left|].
  destruct (chat st) as [c|] eqn:Hc.
  - now rewrite (send_turn _ _ _ c) by (discriminate || assumption).
  - now rewrite send_guard_noop by now right.
Qed.

Lemma initializeApp_present (k : jsstr) (st : St) :
  k <> [] -> ids_fresh st ->
  initializeApp (Some k) st
  = (Ok tt, MkSt (Some (MkChat (js "gemini-2.5-flash"))) (S (nextId st))
                 (children st ++ [(nextId st, MsgNode Bot (CMarkdown GREETING))])
                 (inputDisabled st) (sendDisabled st) (spinner st) (placeholder st)
                 (inputValue st) (inputFocused st) (remoteCalls st)).
Proof.
  intros Hk Hf. destruct k as [|x k]; [congruence|].
  unfold initializeApp, try_catch_finally, createChat, displayInitialGreeting.
  erewrite bind_step by reflexivity. erewrite bind_step by reflexivity.
  unfold setContent, modify, set_children. norm_st. cbv beta iota.
  rewrite map_app, (set_content_fresh _ _ _ Hf). cbn [map set_node_content].
  now rewrite Nat.eqb_refl.
Qed.

Lemma initializeApp_missing (k : option jsstr) (st : St) :
  k = None \/ k = Some [] -> ids_fresh st ->
  initializeApp k st
  = (Ok tt, MkSt (chat st) (S (nextId st))
                 (children st ++ [(nextId st, MsgNode Bot (CHtml CONFIG_ERROR_HTML))])
                 true true (spinner st) DISABLED_PLACEHOLDER
                 (inputValue st) (inputFocused st) (remoteCalls st)).
Proof.
  intros Hk Hf.
  assert (E : initializeApp k st = initializeApp None st) by (now destruct Hk as [->| ->]).
  rewrite E. unfold initializeApp, try_catch_finally. cbn [throw].
  erewrite bind_step by reflexivity. norm_st.
  erewrite bind_step by reflexivity. norm_st.
  unfold setContent, disableApp, modify, ret. norm_st. cbv beta iota. norm_st.
  rewrite map_app, (set_content_fresh _ _ _ Hf). cbn [map set_node_content].
  now rewrite Nat.eqb_refl.
Qed.

Lemma initializeApp_page_ok (k : option jsstr) (st : St) :
  page_ok st ->
  exists st', initializeApp k st = (Ok tt, st') /\ page_ok st'.
Proof.
  intros [Hf Hc].
  assert (Hm : forall nd, is_suggestions (nextId st, nd) = false ->
     page_ok (MkSt (chat st) (S (nextId st)) (children st ++ [(nextId st, nd)])
       (inputDisabled st) (sendDisabled st) (spinner st) (placeholder st)
       (inputValue st) (inputFocused st) (remoteCalls st))).
  { intros nd Hn. split.
    - unfold ids_fresh. cbn [children nextId]. apply Forall_app. split.
      + eapply Forall_impl; [|exact Hf]. simpl. intros; lia.
      + constructor; [simpl; lia|constructor].
    - cbn [children]. rewrite count_suggestions_app. unfold count_suggestions at 2.
      simpl. rewrite Hn. simpl. lia. }
  destruct k as [[|x k]|].
  - eexists. split; [apply initializeApp_missing; auto|].
    destruct (Hm (MsgNode Bot (CHtml CONFIG_ERROR_HTML)) eq_refl) as [H1 H2].
    split; assumption.
  - eexists. split; [apply initializeApp_present; [discriminate|exact Hf]|].
    destruct (Hm (MsgNode Bot (CMarkdown GREETING)) eq_refl) as [H1 H2].
    split; assumption.
  - eexists. split; [apply initializeApp_missing; auto|].
    destruct (Hm (MsgNode Bot (CHtml CONFIG_ERROR_HTML)) eq_refl) as [H1 H2].
    split; assumption.
Qed.

Lemma handleFormSubmit_page_ok (remote : Response) (st : St) :
  page_ok st ->
  exists st', handleFormSubmit remote st = (Ok tt, st') /\ page_ok st'.
Proof.
  intro H. rewrite handleFormSubmit_eq.
  destruct (trim (inputValue st)) as [|x v]; [now exists st|].
  apply send_page_ok. destruct H as [H1 H2]. split; assumption.
Qed.

(** A send of a non-empty message with a session returns normally and
    leaves the page as [after_turn] describes: the first suggestion
    container removed, a user bubble with the message and a bot bubble with
    its final content appended, a container added when the response's block
    yields chips, the controls enabled and focused, one remote call made. *)
Theorem send_turn_outcome (msg : jsstr) (remote : Response) (st : St) (c : ChatSession) :
  msg <> [] -> chat st = Some c -> ids_fresh st ->
  sendMessageAndStreamResponse msg remote st = (Ok tt, after_turn msg remote st).
Proof. exact (send_turn msg remote st c). Qed.

Lemma send_turn_outcome_witness :
  let st := MkSt (Some (MkChat (js "gemini-2.5-flash"))) 2
              [(0%nat, MsgNode Bot (CMarkdown GREETING)); (1%nat, SuggestionsNode [js "a"])]
              false false false [] [] false [] in
  sendMessageAndStreamResponse (js "hi") (Rejected (ErrorObj (js "quota"))) st
  = (Ok tt, after_turn (js "hi") (Rejected (ErrorObj (js "quota"))) st).
Proof.
  intro st. apply (send_turn_outcome _ _ st (MkChat (js "gemini-2.5-flash")));
    [discriminate|reflexivity|unfold ids_fresh; simpl; repeat constructor].
Defined.

(** For a stream that ends normally with at least one chunk, the page
    after the turn depends only on the concatenated text, not on how it
    was split into chunks. *)
Theorem send_chunking_irrelevant (msg : jsstr) (st : St) (c : ChatSession)
    (cs1 cs2 : list Chunk) :
  msg <> [] -> chat st = Some c -> ids_fresh st ->
  cs1 <> [] -> cs2 <> [] -> stream_text cs1 = stream_text cs2 ->
  sendMessageAndStreamResponse msg (Streamed cs1 EndOfStream) st
  = sendMessageAndStreamResponse msg (Streamed cs2 EndOfStream) st.
Proof.
  intros Hm Hc Hf H1 H2 Ht.
  rewrite !(send_turn _ _ _ c Hm Hc Hf). unfold after_turn, bot_final, turn_suggestions.
  destruct cs1 as [|c1 cs1]; [congruence|]. destruct cs2 as [|c2 cs2]; [congruence|].
  now rewrite Ht.
Qed.

Lemma send_chunking_irrelevant_witness :
  let st := MkSt (Some (MkChat (js "gemini-2.5-flash"))) 0 [] false false false [] [] false [] in
  sendMessageAndStreamResponse (js "hi") (Streamed [Some (js "ab"); Some (js "c")] EndOfStream) st
  = sendMessageAndStreamResponse (js "hi") (Streamed [Some (js "a"); Some (js "bc")] EndOfStream) st.
Proof.
  intro st. apply (send_chunking_irrelevant _ st (MkChat (js "gemini-2.5-flash")));
    [discriminate|reflexivity|constructor|discriminate|discriminate|reflexivity].
Defined.

(** A stream that ends without any chunk leaves the bot bubble empty and
    adds no suggestion container. *)
Theorem send_empty_stream_leaves_bubble_empty (msg : jsstr) (st : St) (c : ChatSession) :
  msg <> [] -> chat st = Some c -> ids_fresh st ->
  let '(r, st') := sendMessageAndStreamResponse msg (Streamed [] EndOfStream) st in
  r = Ok tt
  /\ children st' = remove_first_suggestions (children st)
                    ++ [(nextId st, MsgNode User (CText msg)); (S (nextId st), MsgNode Bot CEmpty)]
  /\ nextId st' = S (S (nextId st)).
Proof.
  intros Hm Hc Hf. rewrite (send_turn _ _ _ c Hm Hc Hf).
  unfold after_turn. cbn. rewrite ?Nat.add_0_r, ?app_nil_r. now repeat split.
Qed.

Lemma send_empty_stream_leaves_bubble_empty_witness :
  let st := MkSt (Some (MkChat (js "gemini-2.5-flash"))) 1 [(0%nat, SuggestionsNode [js "a"])]
              false false false [] [] false [] in
  let '(r, st') := sendMessageAndStreamResponse (js "hi") (Streamed [] EndOfStream) st in
  r = Ok tt
  /\ children st' = remove_first_suggestions (children st)
                    ++ [(nextId st, MsgNode User (CText (js "hi")));
                        (S (nextId st), MsgNode Bot CEmpty)]
  /\ nextId st' = S (S (nextId st)).
Proof.
  intro st. apply (send_empty_stream_leaves_bubble_empty _ st (MkChat (js "gemini-2.5-flash")));
    [discriminate|reflexivity|unfold ids_fresh; simpl; repeat constructor].
Defined.

(** Neither a send nor a form submission ever ends with an exception:
    remote failures are all caught inside the turn. *)
Theorem send_and_submit_never_reject (msg : jsstr) (remote : Response) (st : St) :
  ids_fresh st ->
  fst (sendMessageAndStreamResponse msg remote st) = Ok tt
  /\ fst (handleFormSubmit remote st) = Ok tt.
Proof.
  intro Hf. split; [now apply send_returns|].
  rewrite handleFormSubmit_eq. destruct (trim (inputValue st)) as [|x v]; [reflexivity|].
  now apply send_returns.
Qed.

Lemma send_and_submit_never_reject_witness :
  let st := MkSt (Some (MkChat (js "gemini-2.5-flash"))) 0 [] false false false []
              (js " hi ") false [] in
  fst (sendMessageAndStreamResponse (js "hi") (Streamed [None] (StreamThrows (NonError []))) st)
    = Ok tt
  /\ fst (handleFormSubmit (Streamed [None] (StreamThrows (NonError []))) st) = Ok tt.
Proof. intro st. apply send_and_submit_never_reject. constructor. Defined.

(** Sends, form submissions and initialisation keep element identities
    fresh and at most one suggestion container on the page. *)
Theorem page_invariant_preserved (msg : jsstr) (remote : Response) (k : option jsstr)
    (st : St) :
  page_ok st ->
  page_ok (snd (sendMessageAndStreamResponse msg remote st))
  /\ page_ok (snd (handleFormSubmit remote st))
  /\ page_ok (snd (initializeApp k st)).
Proof.
  intro H.
  destruct (send_page_ok msg remote st H) as [s1 [E1 H1]].
  destruct (handleFormSubmit_page_ok remote st H) as [s2 [E2 H2]].
  destruct (initializeApp_page_ok k st H) as [s3 [E3 H3]].
  now rewrite E1, E2, E3.
Qed.

Lemma page_invariant_preserved_witness :
  let st := MkSt (Some (MkChat (js "gemini-2.5-flash"))) 2
              [(0%nat, MsgNode Bot (CMarkdown GREETING)); (1%nat, SuggestionsNode [js "a"])]
              false false false [] (js "next") false [] in
  let r := Streamed [Some (js "x[SUGGESTIONS]" ++ [QUOTE]); Some (js "q");
                     Some (QUOTE :: js "[/SUGGESTIONS]")] EndOfStream in
  page_ok (snd (sendMessageAndStreamResponse (js "hi") r st))
  /\ page_ok (snd (handleFormSubmit r st))
  /\ page_ok (snd (initializeApp (Some (js "key")) st)).
Proof.
  intros st r. apply page_invariant_preserved.
  split; [unfold ids_fresh; simpl; repeat constructor|vm_compute; repeat constructor].
Defined.

(** From an empty page, initialisation followed by any sequence of sends
    returns normally and leaves at most one suggestion container. *)
Theorem session_at_most_one_container (key : option jsstr)
    (attempts : list (jsstr * Response)) (st0 : St) :
  children st0 = [] ->
  let st1 := snd (initializeApp key st0) in
  fst (initializeApp key st0) = Ok tt
  /\ fst (run_sends attempts st1) = Ok tt
  /\ (count_suggestions (children (snd (run_sends attempts st1))) <= 1)%nat.
Proof.
  intros H0 st1.
  assert (P0 : page_ok st0) by (unfold page_ok, ids_fresh; rewrite H0; split; [apply Forall_nil|apply Nat.le_0_l]).
  destruct (initializeApp_page_ok key st0 P0) as [s1 [E1 P1]].
  unfold st1. rewrite E1. cbn [fst snd].
  destruct (run_sends_page_ok attempts s1 P1) as [s2 [E2 P2]].
  rewrite E2. split; [reflexivity|split; [reflexivity|apply P2]].
Qed.

Lemma session_at_most_one_container_witness :
  let st1 := snd (initializeApp (Some (js "key")) (MkSt None 0 [] false false false [] [] false [])) in
  let blk := js "[SUGGESTIONS]" ++ [QUOTE] ++ js "q" ++ [QUOTE] ++ js "[/SUGGESTIONS]" in
  let attempts := [(js "a", Streamed [Some blk] EndOfStream);
                   (js "b", Streamed [Some blk] EndOfStream)] in
  fst (initializeApp (Some (js "key")) (MkSt None 0 [] false false false [] [] false [])) = Ok tt
  /\ fst (run_sends attempts st1) = Ok tt
  /\ (count_suggestions (children (snd (run_sends attempts st1))) <= 1)%nat.
Proof.
  intros st1 blk attempts.
  apply (session_at_most_one_container _ _ (MkSt None 0 [] false false false [] [] false [])).
  reflexivity.
Defined.

(** Submitting a non-blank input with a session clears the input and
    runs a turn for the trimmed text. *)
Theorem submit_sends_trimmed_input (remote : Response) (st : St) (c : ChatSession) :
  chat st = Some c -> ids_fresh st -> trim (inputValue st) <> [] ->
  handleFormSubmit remote st
  = (Ok tt, after_turn (trim (inputValue st)) remote
              (MkSt (chat st) (nextId st) (children st) (inputDisabled st) (sendDisabled st)
                    (spinner st) (placeholder st) [] (inputFocused st) (remoteCalls st))).
Proof.
  intros Hc Hf Hv. rewrite handleFormSubmit_eq.
  destruct (trim (inputValue st)) as [|x v] eqn:E; [congruence|].
  now apply (send_turn _ _ _ c).
Qed.

Lemma submit_sends_trimmed_input_witness :
  let st := MkSt (Some (MkChat (js "gemini-2.5-flash"))) 0 [] false false false []
              (js "  Olá  ") false [] in
  handleFormSubmit (Rejected (ErrorObj (js "quota"))) st
  = (Ok tt, after_turn (trim (inputValue st)) (Rejected (ErrorObj (js "quota")))
              (MkSt (chat st) (nextId st) (children st) (inputDisabled st) (sendDisabled st)
                    (spinner st) (placeholder st) [] (inputFocused st) (remoteCalls st))).
Proof.
  intro st. apply (submit_sends_trimmed_input _ st (MkChat (js "gemini-2.5-flash")));
    [reflexivity|constructor|vm_compute; discriminate].
Defined.

(** Submitting a non-blank input without a session clears the input and
    changes nothing else. *)
Theorem submit_without_session_clears_input (remote : Response) (st : St) :
  chat st = None -> trim (inputValue st) <> [] ->
  handleFormSubmit remote st
  = (Ok tt, MkSt (chat st) (nextId st) (children st) (inputDisabled st) (sendDisabled st)
                 (spinner st) (placeholder st) [] (inputFocused st) (remoteCalls st)).
Proof.
  intros Hc Hv. rewrite handleFormSubmit_eq.
  destruct (trim (inputValue st)) as [|x v] eqn:E; [congruence|].
  apply send_guard_noop. now right.
Qed.

Lemma submit_without_session_clears_input_witness :
  let st := MkSt None 1 [(0%nat, MsgNode Bot (CHtml CONFIG_ERROR_HTML))] true true false
              DISABLED_PLACEHOLDER (js "hello") false [] in
  handleFormSubmit (Streamed [] EndOfStream) st
  = (Ok tt, MkSt (chat st) (nextId st) (children st) (inputDisabled st) (sendDisabled st)
                 (spinner st) (placeholder st) [] (inputFocused st) (remoteCalls st)).
Proof.
  intro st. apply submit_without_session_clears_input; [reflexivity|vm_compute; discriminate].
Defined.

(** With a non-empty API key, initialisation creates the session for
    gemini-2.5-flash and appends one bot bubble with the greeting rendered
    as Markdown; controls, placeholder and remote calls are untouched. *)
Theorem initializeApp_with_key (k : jsstr) (st : St) :
  k <> [] -> ids_fresh st ->
  initializeApp (Some k) st
  = (Ok tt, MkSt (Some (MkChat (js "gemini-2.5-flash"))) (S (nextId st))
                 (children st ++ [(nextId st, MsgNode Bot (CMarkdown GREETING))])
                 (inputDisabled st) (sendDisabled st) (spinner st) (placeholder st)
                 (inputValue st) (inputFocused st) (remoteCalls st)).
Proof. exact (initializeApp_present k st). Qed.

Lemma initializeApp_with_key_witness :
  initializeApp (Some (js "AIza")) (MkSt None 0 [] false false false [] [] false [])
  = (Ok tt, MkSt (Some (MkChat (js "gemini-2.5-flash"))) 1
                 ([] ++ [(0%nat, MsgNode Bot (CMarkdown GREETING))])
                 false false false [] [] false []).
Proof.
  apply (initializeApp_with_key (js "AIza") (MkSt None 0 [] false false false [] [] false []));
    [discriminate|constructor].
Defined.

(** No suggestion holds a double quote or a line terminator. *)
Theorem suggestions_have_no_quote_or_line_break (s q : jsstr) :
  In q (parseSuggestions s) ->
  forallb (fun c => negb (c =? QUOTE) && negb (is_line_terminator c)) q = true.
Proof. exact (parseSuggestions_chars s q). Qed.

Lemma suggestions_have_no_quote_or_line_break_witness :
  let s := js "[SUGGESTIONS]" ++ [LF; QUOTE] ++ js "Como?" ++ [QUOTE; LF] ++ js "[/SUGGESTIONS]" in
  In (js "Como?") (parseSuggestions s)
  /\ forallb (fun c => negb (c =? QUOTE) && negb (is_line_terminator c)) (js "Como?") = true.
Proof.
  intro s. assert (H : In (js "Como?") (parseSuggestions s)) by (vm_compute; left; reflexivity).
  split; [exact H|exact (suggestions_have_no_quote_or_line_break s _ H)].
Defined.

(** Once a text holds a start marker followed by an end marker, text
    appended to it never changes the parsed suggestions. *)
Theorem suggestions_fixed_once_block_complete (s t : jsstr) :
  complete_pair s -> parseSuggestions (s ++ t) = parseSuggestions s.
Proof. exact (parseSuggestions_extend s t). Qed.

Lemma suggestions_fixed_once_block_complete_witness :
  let s := js "[SUGGESTIONS]" ++ [QUOTE] ++ js "a" ++ [QUOTE] ++ js "[/SUGGESTIONS]" in
  complete_pair s
  /\ parseSuggestions (s ++ js "[SUGGESTIONS]" ++ [QUOTE] ++ js "b" ++ [QUOTE]
                         ++ js "[/SUGGESTIONS]")
     = parseSuggestions s.
Proof.
  intro s. assert (H : complete_pair s)
    by (exists [], (QUOTE :: js "a" ++ [QUOTE]), []; reflexivity).
  split; [exact H|exact (suggestions_fixed_once_block_complete s _ H)].
Defined.
